(** * Round-robin standings: [compute_standings] of pickleball_streamlit_app.py

    A shallow embedding of the standings computation and the properties
    of it that the specification states.

    Modelling choices, all read off the source:
    - scores are Python integers, unbounded: [Z] (the rows that
      [iterrows] yields mix strings and numbers, so their cells are plain
      Python objects) and the tallies add up exactly; the frame built
      at the end stores a column of them as 64-bit integers when they all
      fit, and line 25 subtracts in that width;
    - [data] is a Python dict keyed by team name.  A dict keeps its keys
      in insertion order and holds each key once, and the order is later
      the row order of the DataFrame, so it is an association list whose
      keys are pairwise distinct;
    - every inner dict [{'Pld': 0, 'W': 0, ...}] is created afresh by the
      comprehension (no two teams share one) and always has the same six
      keys: a record [Tally];
    - a failing lookup raises; exceptions are the [Raise] results of an
      error monad, and the loop threads the dict through it. *)

From Stdlib Require Import List ZArith String Bool Lia Permutation Sorted.
Import ListNotations.
Open Scope string_scope.
Open Scope list_scope.
Open Scope Z_scope.

(** ** Exceptions and the error monad *)

(** The exception classes a caller can tell apart.  The source contains no
    [raise]: the only exception it can produce is the [KeyError] of a dict
    or DataFrame lookup, which carries the missing key.  The other two are
    the classes the specification names. *)
Inductive exn : Type :=
| KeyError (key : string)
| ReferenceError
| ValidationError.

Inductive result (A : Type) : Type :=
| Ok (a : A)
| Raise (e : exn).
Arguments Ok {A} a.
Arguments Raise {A} e.

Definition bind {A B : Type} (r : result A) (k : A -> result B) : result B :=
  match r with
  | Ok a => k a
  | Raise e => Raise e
  end.

Notation "x <- r ;; k" := (bind r (fun x => k))
  (at level 61, r at next level, right associativity).

(** ** Data *)

(** One row of [matches_df], as the loop reads it: the columns [team_a],
    [team_b], [score_a], [score_b]. *)
Record Match : Type := mkMatch {
  team_a : string;
  team_b : string;
  score_a : Z;
  score_b : Z
}.

(** The inner dict of a team. *)
Record Tally : Type := mkTally {
  Pld : Z;
  W : Z;
  L : Z;
  PF : Z;
  PA : Z;
  Pts : Z
}.

(** The keys of the inner dict. *)
Inductive field : Type := kPld | kW | kL | kPF | kPA | kPts.

(** [t[f] += v] *)
Definition add_field (f : field) (v : Z) (t : Tally) : Tally :=
  match f with
  | kPld => mkTally (Pld t + v) (W t) (L t) (PF t) (PA t) (Pts t)
  | kW => mkTally (Pld t) (W t + v) (L t) (PF t) (PA t) (Pts t)
  | kL => mkTally (Pld t) (W t) (L t + v) (PF t) (PA t) (Pts t)
  | kPF => mkTally (Pld t) (W t) (L t) (PF t + v) (PA t) (Pts t)
  | kPA => mkTally (Pld t) (W t) (L t) (PF t) (PA t + v) (Pts t)
  | kPts => mkTally (Pld t) (W t) (L t) (PF t) (PA t) (Pts t + v)
  end.

(** [{'Pld': 0, 'W': 0, 'L': 0, 'PF': 0, 'PA': 0, 'Pts': 0}] *)
Definition zero : Tally := mkTally 0 0 0 0 0 0.

(** ** The dict [data] *)

Definition dict : Type := list (string * Tally).

Definition keys (d : dict) : list string := map fst d.

(** [d[k]], [None] standing for the KeyError. *)
Fixpoint dict_get (k : string) (d : dict) : option Tally :=
  match d with
  | [] => None
  | (k', t) :: d' => if String.eqb k' k then Some t else dict_get k d'
  end.

(** [d[k] = v]: a key already present keeps its place and takes the new
    value, a new key goes to the end. *)
Fixpoint dict_set (k : string) (v : Tally) (d : dict) : dict :=
  match d with
  | [] => [(k, v)]
  | (k', t) :: d' =>
      if String.eqb k' k then (k', v) :: d' else (k', t) :: dict_set k v d'
  end.

(** The inner dict stored under [k] is changed by [f]; the keys and their
    order stay. *)
Definition map_entries (F : string -> Tally -> Tally) (d : dict) : dict :=
  map (fun e => (fst e, F (fst e) (snd e))) d.

Definition dict_upd (k : string) (f : Tally -> Tally) (d : dict) : dict :=
  map_entries (fun k' t => if String.eqb k' k then f t else t) d.

(** [data[k][f] += v]: the lookup [data[k]] raises KeyError when [k] is not
    a key, otherwise the inner dict is updated in place. *)
Definition bump (k : string) (f : field) (v : Z) (data : dict) : result dict :=
  match dict_get k data with
  | None => Raise (KeyError k)
  | Some _ => Ok (dict_upd k (add_field f v) data)
  end.

(** Line 11: [{team: {...} for team in teams_list}].  A team listed twice
    is assigned twice and so is one key. *)
Definition init_data (teams_list : list string) : dict :=
  fold_left (fun d team => dict_set team zero d) teams_list [].

(** ** The tally loop *)

(** Lines 14-22, the body of the loop, statement by statement. *)
Definition tally_match (data : dict) (m : Match) : result dict :=
  let a := team_a m in
  let b := team_b m in
  let sa := score_a m in
  let sb := score_b m in
  data <- bump a kPld 1 data ;;
  data <- bump b kPld 1 data ;;
  data <- bump a kPF sa data ;;
  data <- bump a kPA sb data ;;
  data <- bump b kPF sb data ;;
  data <- bump b kPA sa data ;;
  if sa >? sb then
    data <- bump a kW 1 data ;;
    data <- bump b kL 1 data ;;
    bump a kPts 2 data
  else
    data <- bump b kW 1 data ;;
    data <- bump a kL 1 data ;;
    bump b kPts 2 data.

(** Line 13: [for _, m in matches_df.iterrows()], rows in order; the first
    exception ends the loop. *)
Fixpoint tally (data : dict) (matches_df : list Match) : result dict :=
  match matches_df with
  | [] => Ok data
  | m :: rest => data' <- tally_match data m ;; tally data' rest
  end.

(** ** The DataFrame *)

(** A frame built from [data]: its column labels and, per index label, the
    cells of the six columns. *)
Record DataFrame : Type := mkFrame {
  columns : list string;
  records : list (string * Tally)
}.

(** Line 24: [pd.DataFrame.from_dict(data, orient='index')].  The column
    labels are the keys of the inner dicts, the index is the keys of
    [data] in their order.  An empty [data] has no inner dict to take the
    labels from: the frame then has no columns at all. *)
Definition from_dict (data : dict) : DataFrame :=
  match data with
  | [] => mkFrame [] []
  | _ :: _ => mkFrame ["Pld"; "W"; "L"; "PF"; "PA"; "Pts"] data
  end.

(** The cell of a row under a column label. *)
Definition cell (c : string) (t : Tally) : Z :=
  if String.eqb c "Pld" then Pld t
  else if String.eqb c "W" then W t
  else if String.eqb c "L" then L t
  else if String.eqb c "PF" then PF t
  else if String.eqb c "PA" then PA t
  else Pts t.

(** The type pandas gives a column of Python integers when the frame is
    built: [int64] when every value fits it, [uint64] when none is
    negative, one exceeds [int64] and all fit [uint64], and otherwise
    [object], the Python integers kept as they are.  (Integers too large
    for a float are not told apart from other [object] columns here.) *)
Inductive dtype : Type := int64 | uint64 | object.

Definition INT64_MIN : Z := - 2 ^ 63.
Definition INT64_MAX : Z := 2 ^ 63 - 1.
Definition UINT64_MAX : Z := 2 ^ 64 - 1.

Definition infer_dtype (vs : list Z) : dtype :=
  let above := existsb (fun v => INT64_MAX <? v) vs in
  let below := existsb (fun v => v <? 0) vs in
  let beyond :=
    existsb (fun v => (UINT64_MAX <? v) || (v <? INT64_MIN)) vs in
  if beyond || (above && below) then object
  else if above then uint64
  else int64.

(** A column taken out of the frame. *)
Record Series : Type := mkSeries {
  dtype_of : dtype;
  values : list Z
}.

(** [df[c]]: the column as a series, KeyError when there is no such
    label. *)
Definition getitem (df : DataFrame) (c : string) : result Series :=
  if existsb (String.eqb c) (columns df)
  then let vs := map (fun e => cell c (snd e)) (records df) in
       Ok (mkSeries (infer_dtype vs) vs)
  else Raise (KeyError c).

(** Two's complement and unsigned wrap-around at 64 bits. *)
Definition wrap_int64 (z : Z) : Z := (z + 2 ^ 63) mod 2 ^ 64 - 2 ^ 63.
Definition wrap_uint64 (z : Z) : Z := z mod 2 ^ 64.

(** The float64 nearest to an integer, ties to the even mantissa of 53
    bits; it is an integer again. *)
Definition round_float64 (z : Z) : Z :=
  let a := Z.abs z in
  if a <? 2 ^ 53 then z
  else
    let e := Z.log2 a - 52 in
    let q := a / 2 ^ e in
    let r := a mod 2 ^ e in
    let half := 2 ^ (e - 1) in
    let q' := if (half <? r) || ((r =? half) && Z.odd q) then q + 1 else q in
    Z.sgn z * (q' * 2 ^ e).

(** [x - y] for a cell of a column of type [d1] and one of type [d2]:
    exact on Python integers, wrapping in [int64] and in [uint64], and a
    float64 subtraction when one column is [int64] and the other
    [uint64]. *)
Definition sub_cell (d1 d2 : dtype) (x y : Z) : Z :=
  match d1, d2 with
  | object, _ | _, object => x - y
  | int64, int64 => wrap_int64 (x - y)
  | uint64, uint64 => wrap_uint64 (x - y)
  | int64, uint64 | uint64, int64 =>
      round_float64 (round_float64 x - round_float64 y)
  end.

Fixpoint sub_cells (d1 d2 : dtype) (xs ys : list Z) : list Z :=
  match xs, ys with
  | x :: xs', y :: ys' => sub_cell d1 d2 x y :: sub_cells d1 d2 xs' ys'
  | _, _ => []
  end.

(** [s1 - s2] on two series over the same index. *)
Definition series_sub (s1 s2 : Series) : list Z :=
  sub_cells (dtype_of s1) (dtype_of s2) (values s1) (values s2).

(** A row of the returned frame: the index label (renamed [team] on line
    27), the six tallied columns and the derived [PD]. *)
Record Row : Type := mkRow {
  team : string;
  stats :> Tally;
  PD : Z
}.

(** [df['PD'] = s]: the series becomes a new column. *)
Fixpoint setitem_PD (recs : list (string * Tally)) (s : list Z) : list Row :=
  match recs, s with
  | (k, t) :: recs', x :: s' => mkRow k t x :: setitem_PD recs' s'
  | _, _ => []
  end.

(** Line 25: [df['PD'] = df['PF'] - df['PA']]. *)
Definition assign_PD (df : DataFrame) : result (list Row) :=
  pf <- getitem df "PF" ;;
  pa <- getitem df "PA" ;;
  Ok (setitem_PD (records df) (series_sub pf pa)).

(** ** Sorting *)

(** [r1] does not come after [r2] when sorting by [['Pts', 'PD']],
    [ascending=False]. *)
Definition key_ge (r1 r2 : Row) : bool :=
  (Pts r2 <? Pts r1) || ((Pts r1 =? Pts r2) && (PD r2 <=? PD r1)).

Fixpoint insert_row (r : Row) (rows : list Row) : list Row :=
  match rows with
  | [] => [r]
  | x :: rows' => if key_ge r x then r :: rows else x :: insert_row r rows'
  end.

(** Line 26: [df.sort_values(['Pts', 'PD'], ascending=False)].  pandas
    sorts on several keys with a stable sort; rows equal on both keys keep
    the order they had.  Written as an insertion sort from the right,
    which is stable. *)
Definition sort_values (rows : list Row) : list Row :=
  fold_right insert_row [] rows.

(** ** compute_standings *)

Definition compute_standings (matches_df : list Match)
  (teams_list : list string) : result (list Row) :=
  let data := init_data teams_list in
  data <- tally data matches_df ;;
  let df := from_dict data in
  df <- assign_PD df ;;
  Ok (sort_values df).

(** ** Vocabulary of the properties *)

(** A match names only teams of the list. *)
Definition known (teams_list : list string) (m : Match) : Prop :=
  In (team_a m) teams_list /\ In (team_b m) teams_list.

(** Adding two tallies column by column. *)
Definition tadd (t u : Tally) : Tally :=
  mkTally (Pld t + Pld u) (W t + W u) (L t + L u)
          (PF t + PF u) (PA t + PA u) (Pts t + Pts u).

(** 1 when the key [k] is the team [x], else 0. *)
Definition ind (k x : string) : Z := if String.eqb k x then 1 else 0.

(** What one pass of the loop body adds to the inner dict of key [k]. *)
Definition delta (k : string) (m : Match) : Tally :=
  let ia := ind k (team_a m) in
  let ib := ind k (team_b m) in
  let won := if score_a m >? score_b m then ia else ib in
  let lost := if score_a m >? score_b m then ib else ia in
  mkTally (ia + ib) won lost
          (ia * score_a m + ib * score_b m)
          (ia * score_b m + ib * score_a m)
          (2 * won).

(** What the whole loop adds to the inner dict of key [k]. *)
Fixpoint total (k : string) (matches_df : list Match) : Tally :=
  match matches_df with
  | [] => zero
  | m :: rest => tadd (delta k m) (total k rest)
  end.

(** The loop body on one entry of [data]. *)
Definition entry_step (m : Match) (e : string * Tally) : string * Tally :=
  (fst e, tadd (snd e) (delta (fst e) m)).

(** The row the frame gets from one entry of [data], the PF column
    having the type [dPF] and the PA column the type [dPA]. *)
Definition row_of (dPF dPA : dtype) (e : string * Tally) : Row :=
  mkRow (fst e) (snd e) (sub_cell dPF dPA (PF (snd e)) (PA (snd e))).

(** The rows of the frame after line 25. *)
Definition frame_rows (d : dict) : list Row :=
  map (row_of (infer_dtype (map (fun e => PF (snd e)) d))
              (infer_dtype (map (fun e => PA (snd e)) d))) d.

(** The types of the PF and PA columns after the matches [matches_df],
    the keys of [data] being [ks]. *)
Definition PF_dtype (matches_df : list Match) (ks : list string) : dtype :=
  infer_dtype (map (fun k => PF (total k matches_df)) ks).
Definition PA_dtype (matches_df : list Match) (ks : list string) : dtype :=
  infer_dtype (map (fun k => PA (total k matches_df)) ks).

(** The row of team [k] after the matches [matches_df], in a frame
    whose PF and PA columns have the types [dPF] and [dPA]. *)
Definition standing_at (dPF dPA : dtype) (matches_df : list Match)
  (k : string) : Row :=
  row_of dPF dPA (k, total k matches_df).

(** The row of team [k] after the matches [matches_df], the team list
    being [teams_list]. *)
Definition standing (matches_df : list Match) (teams_list : list string)
  (k : string) : Row :=
  standing_at (PF_dtype matches_df (keys (init_data teams_list)))
              (PA_dtype matches_df (keys (init_data teams_list)))
              matches_df k.

(** The value fits a signed 64-bit integer. *)
Definition fits_int64 (z : Z) : Prop := INT64_MIN <= z <= INT64_MAX.

(** The sum of [f] over a list. *)
Definition sumZ {A : Type} (f : A -> Z) (l : list A) : Z :=
  fold_right (fun x acc => f x + acc) 0 l.

(** The sum of a column over the rows of the table. *)
Definition col_sum (f : Row -> Z) (df : list Row) : Z := sumZ f df.

(** The sum of both scores over the matches. *)
Definition score_sum (matches_df : list Match) : Z :=
  sumZ (fun m => score_a m + score_b m) matches_df.

(** The order of the table: more points first, then larger differential. *)
Definition ranks_before (r1 r2 : Row) : Prop :=
  Pts r1 > Pts r2 \/ (Pts r1 = Pts r2 /\ PD r1 >= PD r2).

(** ** The tests of the source *)

(** [_test_compute_standings_basic] *)
Definition test_basic : list Match :=
  [ mkMatch "X" "Y" 11 5; mkMatch "Y" "Z" 7 11; mkMatch "Z" "X" 3 11 ].

(** [_test_compute_standings_tiebreak] *)
Definition test_tiebreak : list Match :=
  [ mkMatch "A" "B" 11 5; mkMatch "B" "C" 11 3; mkMatch "C" "A" 11 9 ].

(** [df.loc[df.team == k]], first row. *)
Definition loc_team (df : list Row) (k : string) : option Row :=
  find (fun r => String.eqb (team r) k) df.

(** ** The organizer's page (lines 37-101)

    The page is a script that Streamlit runs again on every interaction;
    what survives from one run to the next is [st.session_state].  The
    widgets are the inputs of a run: what the organizer typed or picked
    comes in as arguments. *)

(** A row of [st.session_state.teams]. *)
Module Roster.
Record row : Type := mk {
  team : string;
  player1 : string;
  player2 : string;
  player3 : string
}.
End Roster.

(** A row of [st.session_state.matches]. *)
Module Log.
Record row : Type := mk {
  round : Z;
  pool : string;
  team_a : string;
  team_b : string;
  player_a : string;
  player_b : string;
  score_a : Z;
  score_b : Z
}.
End Log.

(** The four columns of a logged match that the tally loop reads. *)
Definition to_match (r : Log.row) : Match :=
  mkMatch (Log.team_a r) (Log.team_b r) (Log.score_a r) (Log.score_b r).

(** [st.session_state]: each of the two tables is there or not yet. *)
Module SessionState.
Record t : Type := mk {
  teams : option (list Roster.row);
  matches : option (list Log.row)
}.
End SessionState.

(** Lines 41-47: a table that is missing is created empty. *)
Definition init_session_state (s : SessionState.t) : SessionState.t :=
  SessionState.mk
    (match SessionState.teams s with
     | None => Some []
     | Some roster => Some roster
     end)
    (match SessionState.matches s with
     | None => Some []
     | Some log => Some log
     end).

(** Lines 68-70, the button "Add Team": the typed row is concatenated to
    the table. *)
Definition add_team (roster : list Roster.row) (t p1 p2 p3 : string) :
  list Roster.row :=
  roster ++ [Roster.mk t p1 p2 p3].

(** Lines 87-89, the button "Submit": the entered match is concatenated
    to the log. *)
Definition submit (log : list Log.row) (rnd : Z) (pool ta tb pa pb : string)
  (sa sb : Z) : list Log.row :=
  log ++ [Log.mk rnd pool ta tb pa pb sa sb].

(** Lines 95 and 99: [matches.query("pool=='A'")]. *)
Definition pool_matches (p : string) (log : list Log.row) : list Log.row :=
  filter (fun r => String.eqb (Log.pool r) p) log.

(** Lines 96 and 100:
    [[t for t in teams['team'] if t.startswith('Team A')]]. *)
Definition pool_teams (tag : string) (roster : list Roster.row) :
  list string :=
  filter (String.prefix tag) (map Roster.team roster).

(** Lines 97 and 101: the table of one pool. *)
Definition pool_standings (p tag : string) (roster : list Roster.row)
  (log : list Log.row) : result (list Row) :=
  compute_standings (map to_match (pool_matches p log)) (pool_teams tag roster).

(** What a run of the standings part leaves on the page: the tables
    that [st.dataframe] has rendered, in order, and the exception that
    ended the run, if one did. *)
Record Page : Type := mkPage {
  shown : list (list Row);
  raised : option exn
}.

(** Lines 93-101: nothing is computed while the log is empty; then the
    table of pool A is computed and rendered, and after it the table of
    pool B.  An exception ends the run where it is raised: what was
    rendered before stays on the page. *)
Definition show_standings (roster : list Roster.row) (log : list Log.row) :
  Page :=
  match log with
  | [] => mkPage [] None
  | _ :: _ =>
      match pool_standings "A" "Team A" roster log with
      | Raise e => mkPage [] (Some e)
      | Ok a =>
          match pool_standings "B" "Team B" roster log with
          | Raise e => mkPage [a] (Some e)
          | Ok b => mkPage [a; b] None
          end
      end
  end.

(** ** More vocabulary *)

(** The number of matches that satisfy [p]. *)
Definition count_if (p : Match -> bool) (matches_df : list Match) : Z :=
  Z.of_nat (List.length (filter p matches_df)).

Definition is_a (k : string) (m : Match) : bool := String.eqb k (team_a m).
Definition is_b (k : string) (m : Match) : bool := String.eqb k (team_b m).
Definition a_wins (m : Match) : bool := score_a m >? score_b m.

(** The same match written down from the other side. *)
Definition swap_sides (m : Match) : Match :=
  mkMatch (team_b m) (team_a m) (score_b m) (score_a m).

(** The table of pool [p] can be computed: a roster team carries the tag
    and every logged match of the pool is between such teams. *)
Definition pool_ready (p tag : string) (roster : list Roster.row)
  (log : list Log.row) : Prop :=
  pool_teams tag roster <> [] /\
  Forall (known (pool_teams tag roster)) (map to_match (pool_matches p log)).

(** The team whose lookup fails first in the loop body on [m]. *)
Definition first_missing (teams_list : list string) (m : Match) : string :=
  if in_dec string_dec (team_a m) teams_list then team_b m else team_a m.

(** * Properties *)

(** ** The tests of the source pass *)

Example basic_test_passes :
  exists df, compute_standings test_basic ["X"; "Y"; "Z"] = Ok df /\
    option_map Pts (option_map stats (loc_team df "X")) = Some 4 /\
    option_map Pts (option_map stats (loc_team df "Y")) = Some 0 /\
    option_map Pts (option_map stats (loc_team df "Z")) = Some 2.
Proof. eexists. split; [ vm_compute; reflexivity | repeat split ]. Qed.

Example tiebreak_test_passes :
  exists df, compute_standings test_tiebreak ["A"; "B"; "C"] = Ok df /\
    map team df = ["A"; "B"; "C"] /\ map PD df = [4; 2; -6].
Proof. eexists. split; [ vm_compute; reflexivity | split; reflexivity ]. Qed.

(** ** Line 25 at the limits of 64 bits *)

Example round_float64_ties_to_even :
  round_float64 12345 = 12345 /\
  round_float64 (2 ^ 53 + 1) = 2 ^ 53 /\
  round_float64 (2 ^ 53 + 3) = 2 ^ 53 + 4 /\
  round_float64 (2 ^ 64 - 1) = 2 ^ 64 /\
  round_float64 (- (2 ^ 63 + 1)) = - 2 ^ 63.
Proof. repeat split. Qed.

(** Two [int64] columns: the difference wraps in two's complement. *)
Example PD_wraps_in_int64 :
  exists df,
    compute_standings [ mkMatch "P" "Q" (2 ^ 63 - 1) (- 2 ^ 62) ] ["P"; "Q"]
      = Ok df /\
    map team df = ["P"; "Q"] /\
    map (fun r : Row => PF r - PA r) df
      = [2 ^ 63 + 2 ^ 62 - 1; - (2 ^ 63 + 2 ^ 62 - 1)] /\
    map PD df = [- 2 ^ 62 - 1; 2 ^ 62 + 1].
Proof. eexists. split; [ vm_compute; reflexivity | repeat split ]. Qed.

(** A [uint64] column of PF and an [int64] column of PA: the difference
    is a float64 and loses the last unit of the totals of P and Q. *)
Example PD_rounds_in_float64 :
  exists df,
    compute_standings
      [ mkMatch "P" "Q" (2 ^ 62 + 4097) 0; mkMatch "P" "R" (2 ^ 62) 0 ]
      ["P"; "Q"; "R"] = Ok df /\
    map team df = ["P"; "R"; "Q"] /\
    map (fun r : Row => PF r) df = [2 ^ 63 + 4097; 0; 0] /\
    map (fun r : Row => PA r) df = [0; 2 ^ 62; 2 ^ 62 + 4097] /\
    map PD df = [2 ^ 63 + 4096; - 2 ^ 62; - (2 ^ 62 + 4096)].
Proof. eexists. split; [ vm_compute; reflexivity | repeat split ]. Qed.

(** ** The dict *)

Lemma dict_get_in (k : string) (d : dict) :
  In k (keys d) -> exists t, dict_get k d = Some t.
Proof.
  induction d as [| [k' t] d IH]; simpl; intros H.
  - contradiction.
  - destruct (String.eqb_spec k' k) as [E | E].
    + eauto.
    + destruct H as [H | H]; [ contradiction | auto ].
Qed.

Lemma dict_get_not_in (k : string) (d : dict) :
  ~ In k (keys d) -> dict_get k d = None.
Proof.
  induction d as [| [k' t] d IH]; simpl; intros H.
  - reflexivity.
  - destruct (String.eqb_spec k' k) as [E | E].
    + exfalso. auto.
    + auto.
Qed.

Lemma keys_map_entries (F : string -> Tally -> Tally) (d : dict) :
  keys (map_entries F d) = keys d.
Proof. unfold keys, map_entries. rewrite map_map. reflexivity. Qed.

Lemma keys_dict_upd (k : string) (f : Tally -> Tally) (d : dict) :
  keys (dict_upd k f d) = keys d.
Proof. apply keys_map_entries. Qed.

Lemma map_entries_compose (F G : string -> Tally -> Tally) (d : dict) :
  map_entries G (map_entries F d) = map_entries (fun k t => G k (F k t)) d.
Proof. unfold map_entries. rewrite map_map. reflexivity. Qed.

Lemma keys_entry_step (m : Match) (d : dict) :
  keys (map (entry_step m) d) = keys d.
Proof. unfold keys. rewrite map_map. reflexivity. Qed.

Lemma dict_get_entry_step (m : Match) (k : string) (d : dict) :
  dict_get k (map (entry_step m) d) =
  option_map (fun t => tadd t (delta k m)) (dict_get k d).
Proof.
  induction d as [| [k' t] d IH]; simpl.
  - reflexivity.
  - destruct (String.eqb_spec k' k) as [E | E].
    + subst. reflexivity.
    + exact IH.
Qed.

Lemma in_keys_dict_set (k x : string) (v : Tally) (d : dict) :
  In x (keys (dict_set k v d)) <-> x = k \/ In x (keys d).
Proof.
  induction d as [| [k' t] d IH]; simpl.
  - intuition congruence.
  - destruct (String.eqb_spec k' k) as [E | E]; simpl.
    + subst. intuition congruence.
    + rewrite IH. intuition congruence.
Qed.

Lemma NoDup_keys_dict_set (k : string) (v : Tally) (d : dict) :
  NoDup (keys d) -> NoDup (keys (dict_set k v d)).
Proof.
  induction d as [| [k' t] d IH]; simpl; intros H.
  - constructor; [ simpl; tauto | constructor ].
  - destruct (String.eqb_spec k' k) as [E | E]; simpl.
    + exact H.
    + inversion H as [| ? ? Hn Hd]; subst. constructor.
      * rewrite in_keys_dict_set. intros [F | F]; [ congruence | contradiction ].
      * auto.
Qed.

Lemma zeros_dict_set (k : string) (d : dict) :
  Forall (fun e => snd e = zero) d ->
  Forall (fun e => snd e = zero) (dict_set k zero d).
Proof.
  induction d as [| [k' t] d IH]; simpl; intros H.
  - constructor; auto.
  - inversion H; subst.
    destruct (String.eqb k' k); constructor; auto.
Qed.

(** The state of [data] when the loop starts. *)
Lemma init_data_spec (teams_list : list string) :
  NoDup (keys (init_data teams_list)) /\
  (forall k, In k (keys (init_data teams_list)) <-> In k teams_list) /\
  Forall (fun e => snd e = zero) (init_data teams_list).
Proof.
  unfold init_data.
  assert (G : forall l d,
    NoDup (keys d) -> Forall (fun e => snd e = zero) d ->
    let d' := fold_left (fun d team => dict_set team zero d) l d in
    NoDup (keys d') /\
    (forall k, In k (keys d') <-> In k l \/ In k (keys d)) /\
    Forall (fun e => snd e = zero) d').
  { induction l as [| x l IH]; simpl; intros d Hn Hz.
    - repeat split; auto. intros [[] | H]; exact H.
    - destruct (IH (dict_set x zero d)) as (A & B & C).
      + now apply NoDup_keys_dict_set.
      + now apply zeros_dict_set.
      + repeat split; auto.
        * intros H. apply B in H. rewrite in_keys_dict_set in H.
          intuition congruence.
        * intros H. apply B. rewrite in_keys_dict_set.
          intuition congruence. }
  destruct (G teams_list [] (NoDup_nil _) (Forall_nil _)) as (A & B & C).
  repeat split; auto.
  - intros H. apply B in H. destruct H as [H | []]. exact H.
  - intros H. apply B. now left.
Qed.

Lemma init_data_nonempty (teams_list : list string) :
  teams_list <> [] -> init_data teams_list <> [].
Proof.
  intros H E. destruct teams_list as [| x l]; [ congruence |].
  destruct (init_data_spec (x :: l)) as (_ & B & _).
  rewrite E in B. apply (B x). now left.
Qed.

(** ** The tallies as a commutative monoid *)

Lemma tadd_zero_r (t : Tally) : tadd t zero = t.
Proof. destruct t. unfold tadd. simpl. f_equal; lia. Qed.

Lemma tadd_zero_l (t : Tally) : tadd zero t = t.
Proof. destruct t. unfold tadd. simpl. f_equal; lia. Qed.

Lemma tadd_comm (t u : Tally) : tadd t u = tadd u t.
Proof. unfold tadd. f_equal; lia. Qed.

Lemma tadd_assoc (t u v : Tally) : tadd t (tadd u v) = tadd (tadd t u) v.
Proof. unfold tadd. simpl. f_equal; lia. Qed.

(** ** The loop *)

Lemma bump_ok (k : string) (f : field) (v : Z) (d : dict) :
  In k (keys d) -> bump k f v d = Ok (dict_upd k (add_field f v) d).
Proof.
  intros H. unfold bump. destruct (dict_get_in k d H) as [t E].
  rewrite E. reflexivity.
Qed.

Lemma bump_raise (k : string) (f : field) (v : Z) (d : dict) :
  ~ In k (keys d) -> bump k f v d = Raise (KeyError k).
Proof. intros H. unfold bump. rewrite dict_get_not_in; auto. Qed.

Ltac bump_step :=
  rewrite bump_ok by (rewrite ?keys_dict_upd; assumption); simpl bind.

(** With both teams in [data] the body adds [delta] to every entry (it is
    zero on the entries of other teams). *)
Lemma tally_match_ok (d : dict) (m : Match) :
  In (team_a m) (keys d) -> In (team_b m) (keys d) ->
  tally_match d m = Ok (map (entry_step m) d).
Proof.
  intros Ha Hb. unfold tally_match.
  do 6 bump_step.
  destruct (score_a m >? score_b m) eqn:G; do 3 bump_step; f_equal;
    unfold dict_upd; rewrite !map_entries_compose; apply map_ext;
    intros [k t]; unfold entry_step, delta, ind; cbv beta; rewrite G;
    cbn [fst snd];
    destruct (String.eqb k (team_a m)), (String.eqb k (team_b m));
    destruct t; cbv beta iota delta [add_field tadd Pld W L PF PA Pts];
    do 2 f_equal; lia.
Qed.

Lemma tally_match_raise_a (d : dict) (m : Match) :
  ~ In (team_a m) (keys d) -> tally_match d m = Raise (KeyError (team_a m)).
Proof.
  intros H. unfold tally_match. rewrite bump_raise by assumption.
  reflexivity.
Qed.

Lemma tally_match_raise_b (d : dict) (m : Match) :
  In (team_a m) (keys d) -> ~ In (team_b m) (keys d) ->
  tally_match d m = Raise (KeyError (team_b m)).
Proof.
  intros Ha Hb. unfold tally_match. bump_step.
  rewrite bump_raise by (rewrite keys_dict_upd; assumption).
  reflexivity.
Qed.

(** The loop over matches whose teams are all keys of [data]: no lookup
    fails, and every entry has gained its [total]. *)
Lemma tally_ok (ms : list Match) : forall d : dict,
  Forall (known (keys d)) ms ->
  tally d ms = Ok (map_entries (fun k t => tadd t (total k ms)) d).
Proof.
  induction ms as [| m ms IH]; intros d H; simpl.
  - f_equal. unfold map_entries. rewrite <- (map_id d) at 1.
    apply map_ext. intros [k t]. simpl. now rewrite tadd_zero_r.
  - inversion H as [| ? ? [Ha Hb] Hrest]; subst.
    rewrite tally_match_ok by assumption. simpl bind.
    rewrite IH by (rewrite keys_entry_step; assumption).
    f_equal. unfold map_entries. rewrite map_map. apply map_ext.
    intros [k t]. unfold entry_step. simpl. now rewrite tadd_assoc.
Qed.

(** ** The frame *)

Lemma setitem_PD_sub (d1 d2 : dtype) (recs : list (string * Tally)) :
  setitem_PD recs
    (sub_cells d1 d2 (map (fun e => PF (snd e)) recs)
                     (map (fun e => PA (snd e)) recs)) =
  map (row_of d1 d2) recs.
Proof.
  induction recs as [| [k t] recs IH]; simpl.
  - reflexivity.
  - now rewrite IH.
Qed.

Lemma assign_PD_from_dict (d : dict) :
  d <> [] -> assign_PD (from_dict d) = Ok (frame_rows d).
Proof.
  intros H. destruct d as [| e d]; [ congruence |].
  unfold assign_PD, getitem, series_sub.
  cbn -[setitem_PD sub_cells infer_dtype map].
  f_equal. apply (setitem_PD_sub _ _ (e :: d)).
Qed.

Lemma totals_of_zeros (ms : list Match) (d : dict) :
  Forall (fun e => snd e = zero) d ->
  map_entries (fun k t => tadd t (total k ms)) d =
  map (fun k => (k, total k ms)) (keys d).
Proof.
  intros Hz. unfold map_entries, keys. rewrite map_map.
  apply map_ext_in. intros [k t] Hi.
  rewrite Forall_forall in Hz. specialize (Hz _ Hi). simpl in Hz. subst t.
  simpl. now rewrite tadd_zero_l.
Qed.

Lemma frame_rows_totals (ms : list Match) (ks : list string) :
  frame_rows (map (fun k => (k, total k ms)) ks) =
  map (standing_at (PF_dtype ms ks) (PA_dtype ms ks) ms) ks.
Proof.
  unfold frame_rows, PF_dtype, PA_dtype, standing_at.
  rewrite !map_map. reflexivity.
Qed.

(** A frame with no columns has no ['PF'] to subtract from. *)
Lemma assign_PD_no_columns :
  assign_PD (from_dict []) = Raise (KeyError "PF").
Proof. reflexivity. Qed.

(** ** The sort *)

Lemma ranks_before_iff (r1 r2 : Row) :
  key_ge r1 r2 = true <-> ranks_before r1 r2.
Proof.
  unfold key_ge, ranks_before.
  rewrite orb_true_iff, andb_true_iff, Z.ltb_lt, Z.eqb_eq, Z.leb_le. lia.
Qed.

Lemma ranks_before_total (r1 r2 : Row) :
  key_ge r1 r2 = false -> ranks_before r2 r1.
Proof.
  unfold key_ge, ranks_before.
  rewrite orb_false_iff, andb_false_iff, Z.ltb_ge, Z.eqb_neq, Z.leb_gt. lia.
Qed.

Lemma ranks_before_trans (r1 r2 r3 : Row) :
  ranks_before r1 r2 -> ranks_before r2 r3 -> ranks_before r1 r3.
Proof. unfold ranks_before. lia. Qed.

Lemma insert_row_perm (r : Row) (rows : list Row) :
  Permutation (insert_row r rows) (r :: rows).
Proof.
  induction rows as [| x rows IH]; simpl.
  - apply Permutation_refl.
  - destruct (key_ge r x).
    + apply Permutation_refl.
    + eapply perm_trans; [ apply perm_skip, IH | apply perm_swap ].
Qed.

Lemma sort_values_perm (rows : list Row) :
  Permutation (sort_values rows) rows.
Proof.
  induction rows as [| r rows IH]; simpl.
  - apply perm_nil.
  - eapply perm_trans; [ apply insert_row_perm | now apply perm_skip ].
Qed.

Lemma insert_row_sorted (r : Row) (rows : list Row) :
  Sorted ranks_before rows -> Sorted ranks_before (insert_row r rows).
Proof.
  induction rows as [| x rows IH]; simpl; intros H.
  - repeat constructor.
  - destruct (key_ge r x) eqn:E.
    + constructor; [ exact H | constructor; now apply ranks_before_iff ].
    + inversion H as [| ? ? Hs Hh]; subst.
      constructor; [ now apply IH |].
      destruct rows as [| y rows]; simpl.
      * constructor. now apply ranks_before_total.
      * destruct (key_ge r y); constructor.
        -- now apply ranks_before_total.
        -- now inversion Hh.
Qed.

Lemma sort_values_sorted (rows : list Row) :
  Sorted ranks_before (sort_values rows).
Proof.
  induction rows as [| r rows IH]; simpl.
  - constructor.
  - now apply insert_row_sorted.
Qed.

Lemma sort_values_strongly_sorted (rows : list Row) :
  StronglySorted ranks_before (sort_values rows).
Proof.
  apply Sorted_StronglySorted.
  - intros x y z. apply ranks_before_trans.
  - apply sort_values_sorted.
Qed.

(** ** compute_standings, end to end *)

(** No row is computed once the loop has raised. *)
Lemma compute_standings_raise (ms : list Match) (teams : list string)
  (e : exn) :
  tally (init_data teams) ms = Raise e ->
  compute_standings ms teams = Raise e.
Proof. intros H. unfold compute_standings. now rewrite H. Qed.

(** With a team and only known teams in the matches, the table is the
    sorted list of the [standing]s of the keys of [data]. *)
Lemma compute_standings_ok (ms : list Match) (teams : list string) :
  teams <> [] -> Forall (known teams) ms ->
  compute_standings ms teams =
  Ok (sort_values (map (standing ms teams) (keys (init_data teams)))).
Proof.
  intros Hne Hk. unfold compute_standings.
  destruct (init_data_spec teams) as (Hnd & Hin & Hz).
  rewrite tally_ok.
  2:{ eapply Forall_impl; [| exact Hk ]. intros m [Ha Hb].
      split; now apply Hin. }
  simpl bind. rewrite assign_PD_from_dict.
  2:{ intros E. apply (init_data_nonempty teams Hne).
      unfold map_entries in E. now apply map_eq_nil in E. }
  simpl bind. do 2 f_equal. rewrite totals_of_zeros by assumption.
  apply frame_rows_totals.
Qed.

Lemma tally_match_inv (d d' : dict) (m : Match) :
  tally_match d m = Ok d' ->
  known (keys d) m /\ d' = map (entry_step m) d.
Proof.
  intros H.
  destruct (in_dec string_dec (team_a m) (keys d)) as [Ha | Ha].
  - destruct (in_dec string_dec (team_b m) (keys d)) as [Hb | Hb].
    + rewrite tally_match_ok in H by assumption.
      split; [ now split | congruence ].
    + rewrite tally_match_raise_b in H by assumption. discriminate.
  - rewrite tally_match_raise_a in H by assumption. discriminate.
Qed.

Lemma tally_inv (ms : list Match) : forall d d' : dict,
  tally d ms = Ok d' -> Forall (known (keys d)) ms.
Proof.
  induction ms as [| m ms IH]; intros d d' H; simpl in H.
  - constructor.
  - destruct (tally_match d m) as [d1 |] eqn:E; simpl in H;
      [| discriminate ].
    apply tally_match_inv in E. destruct E as [Hk ->].
    constructor; [ exact Hk |].
    apply IH in H. now rewrite keys_entry_step in H.
Qed.

(** A table is returned exactly when there is a team and every match
    names known teams, and then it is the one of [compute_standings_ok]. *)
Lemma compute_standings_inv (ms : list Match) (teams : list string)
  (df : list Row) :
  compute_standings ms teams = Ok df ->
  teams <> [] /\ Forall (known teams) ms /\
  df = sort_values (map (standing ms teams) (keys (init_data teams))).
Proof.
  intros H.
  assert (Hk : Forall (known teams) ms).
  { unfold compute_standings in H.
    destruct (tally (init_data teams) ms) as [d |] eqn:E; simpl in H;
      [| discriminate ].
    apply tally_inv in E. eapply Forall_impl; [| exact E ].
    intros m [Ha Hb]. destruct (init_data_spec teams) as (_ & Hin & _).
    split; now apply Hin. }
  assert (Hne : teams <> []).
  { intros ->. destruct ms as [| m ms].
    - discriminate H.
    - inversion Hk as [| ? ? [[] _] _]. }
  repeat split; auto.
  rewrite compute_standings_ok in H by assumption. congruence.
Qed.

Lemma compute_standings_returns (ms : list Match) (teams : list string) :
  teams <> [] -> Forall (known teams) ms ->
  exists df, compute_standings ms teams = Ok df.
Proof. intros. rewrite compute_standings_ok by assumption. eauto. Qed.

(** ** Sums *)

Lemma sumZ_perm {A : Type} (f : A -> Z) (l l' : list A) :
  Permutation l l' -> sumZ f l = sumZ f l'.
Proof. induction 1; simpl; lia. Qed.

Lemma sumZ_map {A B : Type} (f : B -> Z) (g : A -> B) (l : list A) :
  sumZ f (map g l) = sumZ (fun x => f (g x)) l.
Proof. induction l; simpl; congruence. Qed.

Lemma sumZ_add {A : Type} (f g : A -> Z) (l : list A) :
  sumZ (fun x => f x + g x) l = sumZ f l + sumZ g l.
Proof. induction l; simpl; lia. Qed.

Lemma sumZ_scale {A : Type} (f : A -> Z) (c : Z) (l : list A) :
  sumZ (fun x => f x * c) l = sumZ f l * c.
Proof. induction l; simpl; lia. Qed.

Lemma sumZ_zero {A : Type} (f : A -> Z) (l : list A) :
  (forall x, f x = 0) -> sumZ f l = 0.
Proof. intros H. induction l; simpl; rewrite ?H; auto. Qed.

Lemma sumZ_ind_out (x : string) (ks : list string) :
  ~ In x ks -> sumZ (fun k => ind k x) ks = 0.
Proof.
  induction ks as [| k ks IH]; simpl; intros H.
  - reflexivity.
  - unfold ind at 1. destruct (String.eqb_spec k x) as [E | E].
    + exfalso. auto.
    + rewrite IH; auto.
Qed.

(** A team is one key of [data]: it is counted once. *)
Lemma sumZ_ind_in (x : string) (ks : list string) :
  NoDup ks -> In x ks -> sumZ (fun k => ind k x) ks = 1.
Proof.
  induction 1 as [| k ks Hn Hd IH]; simpl; intros H.
  - contradiction.
  - unfold ind at 1. destruct (String.eqb_spec k x) as [E | E].
    + subst. rewrite sumZ_ind_out; auto.
    + destruct H as [H | H]; [ contradiction | now rewrite IH ].
Qed.

(** ** The totals *)

Lemma total_perm (k : string) (ms ms' : list Match) :
  Permutation ms ms' -> total k ms = total k ms'.
Proof.
  induction 1; simpl.
  - reflexivity.
  - congruence.
  - rewrite !tadd_assoc. f_equal. apply tadd_comm.
  - congruence.
Qed.

Lemma total_played (k : string) (ms : list Match) :
  W (total k ms) + L (total k ms) = Pld (total k ms).
Proof.
  induction ms as [| m ms IH]; simpl.
  - reflexivity.
  - destruct (score_a m >? score_b m); lia.
Qed.

Section Totals.
Variable ks : list string.
Hypothesis ks_nodup : NoDup ks.

Lemma delta_wins (m : Match) :
  known ks m -> sumZ (fun k => W (delta k m)) ks = 1.
Proof.
  intros [Ha Hb]. unfold delta. simpl.
  destruct (score_a m >? score_b m); now apply sumZ_ind_in.
Qed.

Lemma delta_for (m : Match) :
  known ks m ->
  sumZ (fun k => PF (delta k m)) ks = score_a m + score_b m.
Proof.
  intros [Ha Hb]. unfold delta. simpl.
  rewrite sumZ_add, !sumZ_scale, !sumZ_ind_in by assumption. lia.
Qed.

Lemma delta_against (m : Match) :
  known ks m ->
  sumZ (fun k => PA (delta k m)) ks = score_a m + score_b m.
Proof.
  intros [Ha Hb]. unfold delta. simpl.
  rewrite sumZ_add, !sumZ_scale, !sumZ_ind_in by assumption. lia.
Qed.

Lemma total_wins (ms : list Match) :
  Forall (known ks) ms ->
  sumZ (fun k => W (total k ms)) ks = Z.of_nat (List.length ms).
Proof.
  induction 1 as [| m ms Hm Hms IH].
  - now apply sumZ_zero.
  - cbn [total tadd W List.length]. rewrite sumZ_add, delta_wins, IH by assumption.
    lia.
Qed.

Lemma total_for (ms : list Match) :
  Forall (known ks) ms ->
  sumZ (fun k => PF (total k ms)) ks = score_sum ms.
Proof.
  induction 1 as [| m ms Hm Hms IH].
  - now apply sumZ_zero.
  - cbn [total tadd PF]. rewrite sumZ_add, delta_for, IH by assumption.
    reflexivity.
Qed.

Lemma total_against (ms : list Match) :
  Forall (known ks) ms ->
  sumZ (fun k => PA (total k ms)) ks = score_sum ms.
Proof.
  induction 1 as [| m ms Hm Hms IH].
  - now apply sumZ_zero.
  - cbn [total tadd PA]. rewrite sumZ_add, delta_against, IH by assumption.
    reflexivity.
Qed.
End Totals.

(** ** Rows of the table *)

Lemma team_standing (d1 d2 : dtype) (ms : list Match) (ks : list string) :
  map team (map (standing_at d1 d2 ms) ks) = ks.
Proof. rewrite map_map. simpl. apply map_id. Qed.

Lemma table_teams (d1 d2 : dtype) (ms : list Match) (ks : list string) :
  Permutation (map team (sort_values (map (standing_at d1 d2 ms) ks))) ks.
Proof.
  rewrite <- (team_standing d1 d2 ms ks) at 2.
  apply Permutation_map, sort_values_perm.
Qed.

Lemma loc_team_in (df : list Row) (r : Row) :
  NoDup (map team df) -> In r df -> loc_team df (team r) = Some r.
Proof.
  unfold loc_team. induction df as [| x df IH]; simpl; intros Hn Hi.
  - contradiction.
  - inversion Hn as [| ? ? Hx Hd]; subst.
    destruct (String.eqb_spec (team x) (team r)) as [E | E].
    + destruct Hi as [-> | Hi]; [ reflexivity |].
      exfalso. apply Hx. rewrite E. now apply in_map.
    + destruct Hi as [-> | Hi]; [ congruence | auto ].
Qed.

(** The row of a listed team in the table. *)
Lemma loc_team_standing (ms : list Match) (teams : list string) (k : string) :
  In k teams ->
  loc_team (sort_values (map (standing ms teams) (keys (init_data teams)))) k =
  Some (standing ms teams k).
Proof.
  intros Hk. destruct (init_data_spec teams) as (Hnd & Hin & _).
  apply (loc_team_in _ (standing ms teams k)).
  - eapply Permutation_NoDup; [| exact Hnd ].
    apply Permutation_sym. unfold standing. apply table_teams.
  - eapply Permutation_in; [ apply Permutation_sym, sort_values_perm |].
    apply in_map. now apply Hin.
Qed.

Lemma strongly_sorted_nth {A : Type} (R : A -> A -> Prop) (l : list A) :
  StronglySorted R l ->
  forall (i j : nat) (x y : A),
    (i < j)%nat -> nth_error l i = Some x -> nth_error l j = Some y -> R x y.
Proof.
  induction 1 as [| a l Hs IH Hall]; intros i j x y Hij Hi Hj.
  - destruct i; discriminate.
  - destruct j as [| j]; [ lia |]. simpl in Hj.
    destruct i as [| i]; simpl in Hi.
    + injection Hi as <-. rewrite Forall_forall in Hall.
      apply Hall. eapply nth_error_In; eauto.
    + apply (IH i j); auto. lia.
Qed.

Lemma sumZ_sub {A : Type} (f g : A -> Z) (l : list A) :
  sumZ (fun x => f x - g x) l = sumZ f l - sumZ g l.
Proof. induction l; simpl; lia. Qed.

Lemma total_middle (k : string) (ms1 ms2 : list Match) (m : Match) :
  total k (ms1 ++ m :: ms2) = tadd (delta k m) (total k (ms1 ++ ms2)).
Proof.
  rewrite <- (total_perm k (m :: ms1 ++ ms2) (ms1 ++ m :: ms2)).
  - reflexivity.
  - apply Permutation_middle.
Qed.

Lemma known_without (teams : list string) (ms1 ms2 : list Match) (m : Match) :
  Forall (known teams) (ms1 ++ m :: ms2) -> Forall (known teams) (ms1 ++ ms2).
Proof.
  intros H. apply Forall_app in H. destruct H as [H1 H2].
  apply Forall_app. split; [ exact H1 | now inversion H2 ].
Qed.

(** The table with a match and the table without it: the row of every
    listed team differs by the [delta] of the match. *)
Lemma match_effect (ms1 ms2 : list Match) (m : Match) (teams : list string) :
  teams <> [] -> Forall (known teams) (ms1 ++ m :: ms2) ->
  exists df df0 : list Row,
    compute_standings (ms1 ++ m :: ms2) teams = Ok df /\
    compute_standings (ms1 ++ ms2) teams = Ok df0 /\
    forall k, In k teams ->
      exists r r0 : Row,
        loc_team df k = Some r /\ loc_team df0 k = Some r0 /\
        stats r = tadd (delta k m) (stats r0).
Proof.
  intros Hne Hk.
  rewrite !compute_standings_ok by eauto using known_without.
  do 2 eexists. split; [ reflexivity | split; [ reflexivity |] ].
  intros k Hin. rewrite !loc_team_standing by assumption.
  do 2 eexists. split; [ reflexivity | split; [ reflexivity |] ].
  simpl. apply total_middle.
Qed.

(** The loop stops at the first match that names a team missing from
    [data], with the KeyError of that team. *)
Lemma tally_unknown (teams : list string) (ms : list Match) :
  forall d : dict,
    (forall k, In k (keys d) <-> In k teams) ->
    Exists (fun m => ~ known teams m) ms ->
    exists k, tally d ms = Raise (KeyError k) /\ ~ In k teams /\
              Exists (fun m => k = team_a m \/ k = team_b m) ms.
Proof.
  induction ms as [| m ms IH]; intros d Hd Hex.
  - inversion Hex.
  - simpl.
    destruct (in_dec string_dec (team_a m) (keys d)) as [Ha | Ha].
    + destruct (in_dec string_dec (team_b m) (keys d)) as [Hb | Hb].
      * rewrite tally_match_ok by assumption. simpl bind.
        inversion Hex as [? ? Hm | ? ? Hrest]; subst.
        { exfalso. apply Hm. split; now apply Hd. }
        destruct (IH (map (entry_step m) d)) as (k & E & Hn & Hx); auto.
        { intros k. rewrite keys_entry_step. apply Hd. }
        exists k. repeat split; auto.
      * rewrite tally_match_raise_b by assumption.
        exists (team_b m). repeat split; auto.
        intros F. apply Hb. now apply Hd.
    + rewrite tally_match_raise_a by assumption.
      exists (team_a m). repeat split; auto.
      intros F. apply Ha. now apply Hd.
Qed.


(** ** The types of the columns *)

Lemma existsb_none {A : Type} (f : A -> bool) (l : list A) :
  Forall (fun x => f x = false) l -> existsb f l = false.
Proof. induction 1 as [| x l Hx _ IH]; simpl; [ | rewrite Hx, IH ]; reflexivity. Qed.

Lemma existsb_perm {A : Type} (f : A -> bool) (l l' : list A) :
  Permutation l l' -> existsb f l = existsb f l'.
Proof.
  induction 1; simpl.
  - reflexivity.
  - now rewrite IHPermutation.
  - destruct (f x), (f y); reflexivity.
  - congruence.
Qed.

Lemma infer_dtype_perm (l l' : list Z) :
  Permutation l l' -> infer_dtype l = infer_dtype l'.
Proof.
  intros P. unfold infer_dtype.
  now rewrite !(existsb_perm _ l l' P).
Qed.

Lemma infer_dtype_zero (l : list Z) : infer_dtype (0 :: l) = infer_dtype l.
Proof. reflexivity. Qed.

(** A column whose values all fit is an [int64] column. *)
Lemma infer_dtype_fits (l : list Z) :
  Forall fits_int64 l -> infer_dtype l = int64.
Proof.
  intros H. unfold infer_dtype.
  rewrite (existsb_none (fun v => INT64_MAX <? v)).
  - rewrite (existsb_none (fun v => (UINT64_MAX <? v) || (v <? INT64_MIN))).
    + reflexivity.
    + eapply Forall_impl; [| exact H ]. intros v Hv.
      unfold fits_int64, INT64_MIN, INT64_MAX, UINT64_MAX in *.
      apply orb_false_iff. rewrite !Z.ltb_ge. lia.
  - eapply Forall_impl; [| exact H ]. intros v Hv.
    unfold fits_int64, INT64_MIN, INT64_MAX in *. apply Z.ltb_ge. lia.
Qed.

Lemma wrap_int64_fits (z : Z) : fits_int64 z -> wrap_int64 z = z.
Proof.
  unfold fits_int64, wrap_int64, INT64_MIN, INT64_MAX. intros H.
  rewrite Z.mod_small; lia.
Qed.

Lemma sub_cell_zero (d1 d2 : dtype) : sub_cell d1 d2 0 0 = 0.
Proof. destruct d1, d2; reflexivity. Qed.

(** The row of a team depends on the matches through the totals only. *)
Lemma standing_ext (ms ms' : list Match) (teams : list string) (k : string) :
  (forall x, total x ms = total x ms') ->
  standing ms teams k = standing ms' teams k.
Proof.
  intros H. unfold standing, PF_dtype, PA_dtype, standing_at.
  rewrite (map_ext (fun x => PF (total x ms)) (fun x => PF (total x ms')))
    by (intros x; now rewrite H).
  rewrite (map_ext (fun x => PA (total x ms)) (fun x => PA (total x ms')))
    by (intros x; now rewrite H).
  now rewrite H.
Qed.

Lemma sumZ_pointwise {A : Type} (f g : A -> Z) (l : list A) :
  (forall x, In x l -> f x = g x) -> sumZ f l = sumZ g l.
Proof.
  induction l as [| a l IH]; simpl; intros H.
  - reflexivity.
  - rewrite (H a) by now left. rewrite IH; auto.
Qed.

(** The types of the columns do not depend on the order of the keys. *)
Lemma standing_same_keys (ms : list Match) (teams teams' : list string)
  (k : string) :
  Permutation (keys (init_data teams)) (keys (init_data teams')) ->
  standing ms teams k = standing ms teams' k.
Proof.
  intros P. unfold standing, PF_dtype, PA_dtype.
  rewrite (infer_dtype_perm _ _
             (Permutation_map (fun x => PF (total x ms)) P)).
  rewrite (infer_dtype_perm _ _
             (Permutation_map (fun x => PA (total x ms)) P)).
  reflexivity.
Qed.

(** When the PF and PA of every row fit [int64], line 25 is a
    subtraction of two [int64] columns. *)
Lemma table_PD_int64 (ms : list Match) (teams : list string) (df : list Row) :
  compute_standings ms teams = Ok df ->
  Forall (fun r : Row => fits_int64 (PF r) /\ fits_int64 (PA r)) df ->
  Forall (fun r : Row => PD r = wrap_int64 (PF r - PA r)) df.
Proof.
  intros H Hf. apply compute_standings_inv in H. destruct H as (_ & _ & ->).
  assert (Hrow : forall k, In k (keys (init_data teams)) ->
            fits_int64 (PF (total k ms)) /\ fits_int64 (PA (total k ms))).
  { intros k Hk. rewrite Forall_forall in Hf.
    apply (Hf (standing ms teams k)).
    eapply Permutation_in; [ apply Permutation_sym, sort_values_perm |].
    now apply in_map. }
  assert (HF : PF_dtype ms (keys (init_data teams)) = int64).
  { apply infer_dtype_fits, Forall_forall. intros v Hv.
    apply in_map_iff in Hv. destruct Hv as (k & <- & Hk). now apply Hrow. }
  assert (HA : PA_dtype ms (keys (init_data teams)) = int64).
  { apply infer_dtype_fits, Forall_forall. intros v Hv.
    apply in_map_iff in Hv. destruct Hv as (k & <- & Hk). now apply Hrow. }
  apply Forall_forall. intros r Hr.
  apply (Permutation_in _ (sort_values_perm _)) in Hr.
  apply in_map_iff in Hr. destruct Hr as (k & <- & Hk).
  unfold standing. rewrite HF, HA. reflexivity.
Qed.

(** * The properties stated by the specification *)

(** Closes [Forall (known teams) ms] on an explicit input. *)
Ltac solve_known :=
  repeat (apply Forall_cons; [ split; simpl; tauto |]); apply Forall_nil.

(** C1.  Winner determination, on the rows returned.  When every match
    names listed teams, take any match [m] of the list and compare the
    table with the table of the list without [m].  If [score_a > score_b]
    the row of team_a has one more win and two more points and the row of
    team_b one more loss; otherwise, a drawn score included, the row of
    team_b has one more win and two more points and the row of team_a one
    more loss.  When the two teams differ the loser gains no win and no
    point and the winner no loss. *)
Theorem winner_determination (ms1 ms2 : list Match) (m : Match)
  (teams : list string) :
  Forall (known teams) (ms1 ++ m :: ms2) ->
  exists (df df0 : list Row) (ra rb ra0 rb0 : Row),
    compute_standings (ms1 ++ m :: ms2) teams = Ok df /\
    compute_standings (ms1 ++ ms2) teams = Ok df0 /\
    loc_team df (team_a m) = Some ra /\
    loc_team df (team_b m) = Some rb /\
    loc_team df0 (team_a m) = Some ra0 /\
    loc_team df0 (team_b m) = Some rb0 /\
    (score_a m > score_b m ->
       W ra = W ra0 + 1 /\ Pts ra = Pts ra0 + 2 /\ L rb = L rb0 + 1) /\
    (score_a m <= score_b m ->
       W rb = W rb0 + 1 /\ Pts rb = Pts rb0 + 2 /\ L ra = L ra0 + 1) /\
    (team_a m <> team_b m ->
       (score_a m > score_b m ->
          L ra = L ra0 /\ W rb = W rb0 /\ Pts rb = Pts rb0) /\
       (score_a m <= score_b m ->
          L rb = L rb0 /\ W ra = W ra0 /\ Pts ra = Pts ra0)).
Proof.
  intros Hk.
  assert (Hne : teams <> []).
  { intros ->. apply Forall_app in Hk. destruct Hk as [_ Hk].
    inversion Hk as [| ? ? [[] _] _]. }
  assert (Hm : known teams m).
  { apply Forall_app in Hk. destruct Hk as [_ Hk]. now inversion Hk. }
  destruct Hm as [Ha Hb].
  destruct (match_effect ms1 ms2 m teams Hne Hk) as (df & df0 & E & E0 & H).
  destruct (H _ Ha) as (ra & ra0 & Hra & Hra0 & Sa).
  destruct (H _ Hb) as (rb & rb0 & Hrb & Hrb0 & Sb).
  exists df, df0, ra, rb, ra0, rb0.
  repeat (split; [ assumption |]).
  rewrite Sa, Sb. unfold delta, ind. rewrite !String.eqb_refl.
  cbn [tadd W L Pts].
  destruct (Z.gtb_spec (score_a m) (score_b m)) as [G | G];
    (split; [| split ]); intros; try lia.
  - split; [ intros _ | lia ].
    destruct (String.eqb_spec (team_a m) (team_b m)) as [E1 | E1];
      [ contradiction |].
    destruct (String.eqb_spec (team_b m) (team_a m)) as [E2 | E2];
      [ congruence |].
    lia.
  - split; [ lia | intros _ ].
    destruct (String.eqb_spec (team_a m) (team_b m)) as [E1 | E1];
      [ contradiction |].
    destruct (String.eqb_spec (team_b m) (team_a m)) as [E2 | E2];
      [ congruence |].
    lia.
Qed.

Lemma winner_determination_witness :
  let ms1 := [ mkMatch "A" "C" 11 5 ] in
  let m := mkMatch "A" "B" 7 7 in
  let ms2 := [ mkMatch "C" "B" 11 3 ] in
  let teams := ["A"; "B"; "C"] in
  Forall (known teams) (ms1 ++ m :: ms2) /\
  exists (df df0 : list Row) (ra rb ra0 rb0 : Row),
    compute_standings (ms1 ++ m :: ms2) teams = Ok df /\
    compute_standings (ms1 ++ ms2) teams = Ok df0 /\
    loc_team df (team_a m) = Some ra /\
    loc_team df (team_b m) = Some rb /\
    loc_team df0 (team_a m) = Some ra0 /\
    loc_team df0 (team_b m) = Some rb0 /\
    (score_a m > score_b m ->
       W ra = W ra0 + 1 /\ Pts ra = Pts ra0 + 2 /\ L rb = L rb0 + 1) /\
    (score_a m <= score_b m ->
       W rb = W rb0 + 1 /\ Pts rb = Pts rb0 + 2 /\ L ra = L ra0 + 1) /\
    (team_a m <> team_b m ->
       (score_a m > score_b m ->
          L ra = L ra0 /\ W rb = W rb0 /\ Pts rb = Pts rb0) /\
       (score_a m <= score_b m ->
          L rb = L rb0 /\ W ra = W ra0 /\ Pts ra = Pts ra0)).
Proof.
  intros ms1 m ms2 teams.
  assert (Hk : Forall (known teams) (ms1 ++ m :: ms2)) by solve_known.
  split; [ exact Hk | exact (winner_determination ms1 ms2 m teams Hk) ].
Defined.



(** C4.  On an empty team list (and so no match) [compute_standings]
    does not return an empty table: the frame built from the empty dict
    has no column, and line 25 raises KeyError on ['PF']. *)
Theorem empty_team_list_raises :
  compute_standings [] [] = Raise (KeyError "PF") /\
  forall df : list Row, compute_standings [] [] <> Ok df.
Proof. split; [ reflexivity | discriminate ]. Qed.

(** C5.  Conservation: when every match names teams of the list, in the
    table returned every row has [W + L = Pld], and the wins of all rows
    add up to the number of matches.  (A table is returned as soon as the
    list has a team.) *)
Theorem conservation (ms : list Match) (teams : list string) :
  Forall (known teams) ms ->
  (teams <> [] -> exists df, compute_standings ms teams = Ok df) /\
  (forall df : list Row,
     compute_standings ms teams = Ok df ->
     Forall (fun r : Row => W r + L r = Pld r) df /\
     col_sum (fun r => W r) df = Z.of_nat (List.length ms)).
Proof.
  intros Hk. split.
  - intros Hne. now apply compute_standings_returns.
  - intros df H. apply compute_standings_inv in H. destruct H as (_ & _ & ->).
    destruct (init_data_spec teams) as (Hnd & Hin & _).
    split.
    + eapply Permutation_Forall;
        [ apply Permutation_sym, sort_values_perm |].
      apply Forall_forall. intros r Hr. apply in_map_iff in Hr.
      destruct Hr as (k & <- & _). apply total_played.
    + unfold col_sum. rewrite (sumZ_perm _ _ _ (sort_values_perm _)).
      rewrite sumZ_map. apply total_wins; [ exact Hnd |].
      eapply Forall_impl; [| exact Hk ].
      intros m [Ha Hb]. split; now apply Hin.
Qed.

Lemma conservation_witness :
  Forall (known ["X"; "Y"; "Z"]) test_basic /\
  (["X"; "Y"; "Z"] <> [] ->
   exists df, compute_standings test_basic ["X"; "Y"; "Z"] = Ok df) /\
  (forall df : list Row,
     compute_standings test_basic ["X"; "Y"; "Z"] = Ok df ->
     Forall (fun r : Row => W r + L r = Pld r) df /\
     col_sum (fun r => W r) df = Z.of_nat (List.length test_basic)).
Proof.
  assert (H : Forall (known ["X"; "Y"; "Z"]) test_basic).
  { solve_known. }
  split; [ exact H | exact (conservation test_basic ["X"; "Y"; "Z"] H) ].
Defined.

(** C9, as stated, fails: the point differentials need not sum to
    zero.  Two totals of 2^63 make PF and PA unsigned 64-bit columns, and
    line 25 then wraps: C, with 14 for and 20 against, gets the
    differential 2^64 - 6. *)
Lemma differentials_not_balanced :
  let ms := test_tiebreak ++
            [ mkMatch "P" "Q" (2 ^ 62) 0; mkMatch "P" "Q" (2 ^ 62) 0 ] in
  let teams := ["A"; "B"; "C"; "P"; "Q"] in
  Forall (known teams) ms /\
  exists df, compute_standings ms teams = Ok df /\
    map team df = ["P"; "C"; "A"; "B"; "Q"] /\
    map PD df = [2 ^ 63; 2 ^ 64 - 6; 4; 2; 2 ^ 63] /\
    col_sum (fun r => PF r) df = col_sum (fun r => PA r) df /\
    col_sum PD df <> 0.
Proof.
  intros ms teams. split; [ solve_known |].
  eexists. split; [ vm_compute; reflexivity |].
  repeat split; vm_compute; congruence.
Qed.

(** C9, amended.  Points balance: when every match names teams of the
    list, in the table returned the [PF] column and the [PA] column have
    the same sum; and the [PD] column sums to zero when every PF, every
    PA and every difference PF - PA of the table fits a signed 64-bit
    integer.  (A table is returned as soon as the list has a team.) *)
Theorem points_balance (ms : list Match) (teams : list string) :
  Forall (known teams) ms ->
  (teams <> [] -> exists df, compute_standings ms teams = Ok df) /\
  (forall df : list Row,
     compute_standings ms teams = Ok df ->
     col_sum (fun r => PF r) df = col_sum (fun r => PA r) df /\
     (Forall (fun r : Row => fits_int64 (PF r) /\ fits_int64 (PA r) /\
                             fits_int64 (PF r - PA r)) df ->
      col_sum PD df = 0)).
Proof.
  intros Hk. split.
  - intros Hne. now apply compute_standings_returns.
  - intros df H.
    assert (Hsum : col_sum (fun r => PF r) df = col_sum (fun r => PA r) df).
    { pose proof H as H'. apply compute_standings_inv in H'.
      destruct H' as (_ & _ & ->).
      destruct (init_data_spec teams) as (Hnd & Hin & _).
      assert (Hk' : Forall (known (keys (init_data teams))) ms).
      { eapply Forall_impl; [| exact Hk ].
        intros m [Ha Hb]. split; now apply Hin. }
      unfold col_sum. rewrite !(sumZ_perm _ _ _ (sort_values_perm _)).
      rewrite !sumZ_map.
      change (sumZ (fun k => PF (total k ms)) (keys (init_data teams)) =
              sumZ (fun k => PA (total k ms)) (keys (init_data teams))).
      now rewrite (total_for _ Hnd ms Hk'), (total_against _ Hnd ms Hk'). }
    split; [ exact Hsum |]. intros Hfit.
    assert (Hpd : Forall (fun r : Row => PD r = wrap_int64 (PF r - PA r)) df).
    { apply (table_PD_int64 ms teams df H).
      eapply Forall_impl; [| exact Hfit ].
      intros r (A & B & _). split; assumption. }
    unfold col_sum in *.
    rewrite (sumZ_pointwise PD (fun r : Row => PF r - PA r)).
    + rewrite sumZ_sub. lia.
    + intros r Hr. rewrite Forall_forall in Hpd, Hfit.
      rewrite (Hpd r Hr). apply wrap_int64_fits. now apply Hfit.
Qed.

Lemma points_balance_witness :
  Forall (known ["A"; "B"; "C"]) test_tiebreak /\
  (["A"; "B"; "C"] <> [] ->
   exists df, compute_standings test_tiebreak ["A"; "B"; "C"] = Ok df) /\
  (forall df : list Row,
     compute_standings test_tiebreak ["A"; "B"; "C"] = Ok df ->
     col_sum (fun r => PF r) df = col_sum (fun r => PA r) df /\
     (Forall (fun r : Row => fits_int64 (PF r) /\ fits_int64 (PA r) /\
                             fits_int64 (PF r - PA r)) df ->
      col_sum PD df = 0)).
Proof.
  assert (H : Forall (known ["A"; "B"; "C"]) test_tiebreak).
  { solve_known. }
  split; [ exact H | exact (points_balance test_tiebreak ["A"; "B"; "C"] H) ].
Defined.

(** C6.  Match order: when every match names teams of the list, a
    permutation of the match list gives the same result; with a team in
    the list both calls return a table, and the two tables hold the same
    rows (as multisets). *)
Theorem match_order_irrelevant (ms ms' : list Match) (teams : list string) :
  Forall (known teams) ms -> Permutation ms ms' ->
  compute_standings ms' teams = compute_standings ms teams /\
  (teams <> [] ->
   exists df df' : list Row,
     compute_standings ms teams = Ok df /\
     compute_standings ms' teams = Ok df' /\
     Permutation df df').
Proof.
  intros Hk Hp.
  assert (Hk' : Forall (known teams) ms').
  { eapply Permutation_Forall; eauto. }
  assert (E : map (standing ms' teams) (keys (init_data teams)) =
              map (standing ms teams) (keys (init_data teams))).
  { apply map_ext. intros k. apply standing_ext.
    intros x. symmetry. now apply total_perm. }
  destruct teams as [| t teams].
  - destruct ms as [| m ms].
    + apply Permutation_nil in Hp. subst. split; [ reflexivity | congruence ].
    + inversion Hk as [| ? ? [[] _] _].
  - assert (Hne : t :: teams <> []) by discriminate.
    rewrite !compute_standings_ok by assumption. rewrite E.
    split; [ reflexivity |]. intros _.
    do 2 eexists. repeat split. apply Permutation_refl.
Qed.

Lemma match_order_irrelevant_witness :
  let ms := test_tiebreak in
  let ms' := [ mkMatch "C" "A" 11 9; mkMatch "A" "B" 11 5;
               mkMatch "B" "C" 11 3 ] in
  let teams := ["A"; "B"; "C"] in
  (Forall (known teams) ms /\ Permutation ms ms') /\
  compute_standings ms' teams = compute_standings ms teams /\
  (teams <> [] ->
   exists df df' : list Row,
     compute_standings ms teams = Ok df /\
     compute_standings ms' teams = Ok df' /\
     Permutation df df').
Proof.
  intros ms ms' teams.
  assert (H : Forall (known teams) ms) by solve_known.
  assert (P : Permutation ms ms').
  { unfold ms, ms', test_tiebreak.
    eapply perm_trans; [ apply perm_skip, perm_swap | apply perm_swap ]. }
  split; [ split; assumption |].
  exact (match_order_irrelevant ms ms' teams H P).
Defined.

(** C10.  One row per distinct team: the accumulators have pairwise
    distinct keys, and in the table returned no team has two rows, the
    teams of the rows are exactly the teams of the list, and there are
    as many rows as the list has distinct teams. *)
Theorem one_row_per_team (ms : list Match) (teams : list string)
  (df : list Row) :
  compute_standings ms teams = Ok df ->
  NoDup (keys (init_data teams)) /\
  NoDup (map team df) /\
  (forall k, In k (map team df) <-> In k teams) /\
  List.length df = List.length (nodup string_dec teams).
Proof.
  intros H. apply compute_standings_inv in H. destruct H as (_ & _ & ->).
  destruct (init_data_spec teams) as (Hnd & Hin & _).
  pose proof (table_teams
                (PF_dtype ms (keys (init_data teams)))
                (PA_dtype ms (keys (init_data teams)))
                ms (keys (init_data teams))) as P.
  fold (standing ms teams) in P.
  assert (Hn : NoDup (map team (sort_values
                 (map (standing ms teams) (keys (init_data teams)))))).
  { eapply Permutation_NoDup; [ apply Permutation_sym, P | exact Hnd ]. }
  assert (Hi : forall k, In k (map team (sort_values
                 (map (standing ms teams) (keys (init_data teams))))) <->
               In k teams).
  { intros k. rewrite <- Hin. split; apply Permutation_in;
      [ exact P | apply Permutation_sym, P ]. }
  repeat split; try assumption; try apply Hi.
  rewrite <- (length_map team). apply Permutation_length.
  apply NoDup_Permutation; [ exact Hn | apply NoDup_nodup |].
  intros k. rewrite Hi, nodup_In. reflexivity.
Qed.

Lemma one_row_per_team_witness :
  let ms := [ mkMatch "A" "B" 11 5 ] in
  let teams := ["A"; "B"; "A"; "B"; "B"] in
  let df := [ mkRow "A" (mkTally 1 1 0 11 5 2) 6;
              mkRow "B" (mkTally 1 0 1 5 11 0) (-6) ] in
  compute_standings ms teams = Ok df /\
  NoDup (keys (init_data teams)) /\
  NoDup (map team df) /\
  (forall k, In k (map team df) <-> In k teams) /\
  List.length df = List.length (nodup string_dec teams).
Proof.
  intros ms teams df. split.
  - reflexivity.
  - apply (one_row_per_team ms teams df). reflexivity.
Defined.

(** C3, as stated, fails: a match naming a team outside the list makes
    the accumulator lookup itself raise KeyError; there is no rejection
    check and no ReferenceError. *)
Lemma unknown_team_not_ReferenceError :
  let ms := [ mkMatch "X" "Q" 11 5 ] in
  let teams := ["X"; "Y"] in
  Exists (fun m => ~ known teams m) ms /\
  compute_standings ms teams = Raise (KeyError "Q") /\
  compute_standings ms teams <> Raise ReferenceError.
Proof.
  intros ms teams. split; [| split ].
  - apply Exists_cons_hd. intros [_ [H | [H | []]]]; discriminate H.
  - reflexivity.
  - discriminate.
Qed.

(** C3, amended.  For every match list containing a match whose team_a
    or team_b is not in the team list, [compute_standings] fails with the
    KeyError of the unchecked accumulator lookup, on a team that a match
    names and the list lacks, and returns no table. *)
Theorem unknown_team_KeyError (ms : list Match) (teams : list string) :
  Exists (fun m => ~ known teams m) ms ->
  exists k : string,
    compute_standings ms teams = Raise (KeyError k) /\
    ~ In k teams /\
    Exists (fun m => k = team_a m \/ k = team_b m) ms /\
    forall df : list Row, compute_standings ms teams <> Ok df.
Proof.
  intros H. destruct (init_data_spec teams) as (_ & Hin & _).
  destruct (tally_unknown teams ms (init_data teams) Hin H)
    as (k & E & Hn & Hx).
  exists k. apply compute_standings_raise in E. rewrite E.
  repeat split; auto. discriminate.
Qed.

Lemma unknown_team_KeyError_witness :
  let ms := [ mkMatch "X" "Y" 11 5; mkMatch "Q" "X" 11 5 ] in
  let teams := ["X"; "Y"] in
  Exists (fun m => ~ known teams m) ms /\
  exists k : string,
    compute_standings ms teams = Raise (KeyError k) /\
    ~ In k teams /\
    Exists (fun m => k = team_a m \/ k = team_b m) ms /\
    forall df : list Row, compute_standings ms teams <> Ok df.
Proof.
  intros ms teams.
  assert (H : Exists (fun m => ~ known teams m) ms).
  { apply Exists_cons_tl, Exists_cons_hd.
    intros [[H | [H | []]] _]; discriminate H. }
  split; [ exact H | exact (unknown_team_KeyError ms teams H) ].
Defined.

(** C7, as stated, fails: a negative score is not rejected, the table
    is computed with it. *)
Lemma negative_score_not_rejected :
  let ms := [ mkMatch "X" "Y" (-1) 11 ] in
  let teams := ["X"; "Y"] in
  Exists (fun m => score_a m < 0) ms /\
  compute_standings ms teams =
    Ok [ mkRow "Y" (mkTally 1 1 0 11 (-1) 2) 12;
         mkRow "X" (mkTally 1 0 1 (-1) 11 0) (-12) ] /\
  compute_standings ms teams <> Raise ValidationError.
Proof.
  intros ms teams. split; [| split ].
  - apply Exists_cons_hd. reflexivity.
  - reflexivity.
  - discriminate.
Qed.

(** C7, amended.  Scores are not validated.  For every match list
    containing a match with a negative score, all of whose matches name
    teams of a non-empty team list, [compute_standings] returns a table,
    and the negative score is tallied like any other: compared with the
    table of the list without that match, the row of team_a has the
    match's score_a more in PF and score_b more in PA, and the row of
    team_b has score_b more in PF and score_a more in PA. *)
Theorem negative_score_tallied (ms1 ms2 : list Match) (m : Match)
  (teams : list string) :
  score_a m < 0 \/ score_b m < 0 ->
  teams <> [] -> Forall (known teams) (ms1 ++ m :: ms2) ->
  exists df df0 : list Row,
    compute_standings (ms1 ++ m :: ms2) teams = Ok df /\
    compute_standings (ms1 ++ ms2) teams = Ok df0 /\
    forall k, In k teams ->
      exists r r0 : Row,
        loc_team df k = Some r /\ loc_team df0 k = Some r0 /\
        PF r = PF r0 + ind k (team_a m) * score_a m
                     + ind k (team_b m) * score_b m /\
        PA r = PA r0 + ind k (team_a m) * score_b m
                     + ind k (team_b m) * score_a m.
Proof.
  intros _ Hne Hk.
  destruct (match_effect ms1 ms2 m teams Hne Hk) as (df & df0 & E & E0 & H).
  exists df, df0. repeat split; auto.
  intros k Hin. destruct (H k Hin) as (r & r0 & Hr & Hr0 & Hs).
  exists r, r0. repeat split; auto; rewrite Hs; unfold delta; simpl; lia.
Qed.

Lemma negative_score_tallied_witness :
  let ms1 := [ mkMatch "X" "Y" 11 5 ] in
  let m := mkMatch "Y" "X" (-1) 11 in
  let ms2 := [ mkMatch "X" "Y" 3 11 ] in
  let teams := ["X"; "Y"] in
  (score_a m < 0 \/ score_b m < 0) /\ teams <> [] /\
  Forall (known teams) (ms1 ++ m :: ms2) /\
  exists df df0 : list Row,
    compute_standings (ms1 ++ m :: ms2) teams = Ok df /\
    compute_standings (ms1 ++ ms2) teams = Ok df0 /\
    forall k, In k teams ->
      exists r r0 : Row,
        loc_team df k = Some r /\ loc_team df0 k = Some r0 /\
        PF r = PF r0 + ind k (team_a m) * score_a m
                     + ind k (team_b m) * score_b m /\
        PA r = PA r0 + ind k (team_a m) * score_b m
                     + ind k (team_b m) * score_a m.
Proof.
  intros ms1 m ms2 teams.
  assert (Hs : score_a m < 0 \/ score_b m < 0) by (left; reflexivity).
  assert (Hne : teams <> []) by discriminate.
  assert (Hk : Forall (known teams) (ms1 ++ m :: ms2)) by solve_known.
  repeat (split; [ assumption |]).
  exact (negative_score_tallied ms1 ms2 m teams Hs Hne Hk).
Defined.

(** C8, as stated, fails: a match of a team against itself is not
    rejected, the table is computed with it. *)
Lemma self_play_not_rejected :
  let ms := [ mkMatch "X" "X" 11 5 ] in
  let teams := ["X"; "Y"] in
  Exists (fun m => team_a m = team_b m) ms /\
  compute_standings ms teams =
    Ok [ mkRow "X" (mkTally 2 1 1 16 16 2) 0;
         mkRow "Y" (mkTally 0 0 0 0 0 0) 0 ] /\
  compute_standings ms teams <> Raise ValidationError.
Proof.
  intros ms teams. split; [| split ].
  - apply Exists_cons_hd. reflexivity.
  - reflexivity.
  - discriminate.
Qed.

(** C8, amended.  Self-play is not validated.  For every match list
    containing a match with team_a = team_b, all of whose matches name
    teams of a non-empty team list, [compute_standings] returns a table,
    and the match counts on both sides for its team: compared with the
    table of the list without that match, the team's row has two more
    played, one more win, one more loss, two more points, and the sum of
    both scores more in PF and in PA. *)
Theorem self_play_tallied (ms1 ms2 : list Match) (m : Match)
  (teams : list string) :
  team_a m = team_b m ->
  teams <> [] -> Forall (known teams) (ms1 ++ m :: ms2) ->
  exists (df df0 : list Row) (r r0 : Row),
    compute_standings (ms1 ++ m :: ms2) teams = Ok df /\
    compute_standings (ms1 ++ ms2) teams = Ok df0 /\
    loc_team df (team_a m) = Some r /\
    loc_team df0 (team_a m) = Some r0 /\
    Pld r = Pld r0 + 2 /\ W r = W r0 + 1 /\ L r = L r0 + 1 /\
    Pts r = Pts r0 + 2 /\
    PF r = PF r0 + (score_a m + score_b m) /\
    PA r = PA r0 + (score_a m + score_b m).
Proof.
  intros Hab Hne Hk.
  destruct (match_effect ms1 ms2 m teams Hne Hk) as (df & df0 & E & E0 & H).
  assert (Hin : In (team_a m) teams).
  { apply Forall_app in Hk. destruct Hk as [_ Hk].
    inversion Hk as [| ? ? [Ha _] _]. exact Ha. }
  destruct (H _ Hin) as (r & r0 & Hr & Hr0 & Hs).
  exists df, df0, r, r0. repeat (split; [ assumption |]).
  rewrite Hs. unfold delta, ind. rewrite <- Hab, String.eqb_refl.
  cbn [tadd Pld W L PF PA Pts].
  destruct (score_a m >? score_b m); repeat split; lia.
Qed.

Lemma self_play_tallied_witness :
  let ms1 := [ mkMatch "X" "Y" 11 5 ] in
  let m := mkMatch "X" "X" 11 5 in
  let ms2 := [ mkMatch "Y" "X" 3 11 ] in
  let teams := ["X"; "Y"] in
  team_a m = team_b m /\ teams <> [] /\
  Forall (known teams) (ms1 ++ m :: ms2) /\
  exists (df df0 : list Row) (r r0 : Row),
    compute_standings (ms1 ++ m :: ms2) teams = Ok df /\
    compute_standings (ms1 ++ ms2) teams = Ok df0 /\
    loc_team df (team_a m) = Some r /\
    loc_team df0 (team_a m) = Some r0 /\
    Pld r = Pld r0 + 2 /\ W r = W r0 + 1 /\ L r = L r0 + 1 /\
    Pts r = Pts r0 + 2 /\
    PF r = PF r0 + (score_a m + score_b m) /\
    PA r = PA r0 + (score_a m + score_b m).
Proof.
  intros ms1 m ms2 teams.
  assert (Hs : team_a m = team_b m) by reflexivity.
  assert (Hne : teams <> []) by discriminate.
  assert (Hk : Forall (known teams) (ms1 ++ m :: ms2)) by solve_known.
  repeat (split; [ assumption |]).
  exact (self_play_tallied ms1 ms2 m teams Hs Hne Hk).
Defined.

(** * Further properties of the code *)

(** ** Helper facts *)

Lemma tally_app (ms1 ms2 : list Match) : forall d : dict,
  tally d (ms1 ++ ms2) = d' <- tally d ms1 ;; tally d' ms2.
Proof.
  induction ms1 as [| m ms1 IH]; intros d; simpl.
  - reflexivity.
  - destruct (tally_match d m) as [d1 |]; simpl; auto.
Qed.

Lemma known_keys (teams : list string) (ms : list Match) :
  Forall (known teams) ms -> Forall (known (keys (init_data teams))) ms.
Proof.
  destruct (init_data_spec teams) as (_ & Hin & _).
  apply Forall_impl. intros m [Ha Hb]. split; now apply Hin.
Qed.

Lemma known_nonempty (teams : list string) (ms1 ms2 : list Match)
  (m : Match) :
  Forall (known teams) (ms1 ++ m :: ms2) -> teams <> [].
Proof.
  intros H ->. apply Forall_app in H. destruct H as [_ H].
  inversion H as [| ? ? [[] _] _].
Qed.

Lemma delta_other (k : string) (m : Match) :
  k <> team_a m -> k <> team_b m -> delta k m = zero.
Proof.
  intros Ha Hb. unfold delta, ind.
  destruct (String.eqb_spec k (team_a m)); [ contradiction |].
  destruct (String.eqb_spec k (team_b m)); [ contradiction |].
  destruct (score_a m >? score_b m); reflexivity.
Qed.

Lemma total_unnamed (k : string) (ms : list Match) :
  Forall (fun m => k <> team_a m /\ k <> team_b m) ms -> total k ms = zero.
Proof.
  induction 1 as [| m ms [Ha Hb] _ IH]; simpl.
  - reflexivity.
  - now rewrite delta_other, IH.
Qed.

Lemma total_points (k : string) (ms : list Match) :
  Pts (total k ms) = 2 * W (total k ms).
Proof.
  induction ms as [| m ms IH].
  - reflexivity.
  - cbn [total]. unfold tadd, delta. cbn [Pts W]. lia.
Qed.

Lemma total_counts_nonneg (k : string) (ms : list Match) :
  0 <= W (total k ms) /\ 0 <= L (total k ms).
Proof.
  induction ms as [| m ms IH]; simpl.
  - lia.
  - unfold ind.
    destruct (String.eqb k (team_a m)), (String.eqb k (team_b m)),
             (score_a m >? score_b m); lia.
Qed.

Lemma total_scores_nonneg (k : string) (ms : list Match) :
  Forall (fun m => 0 <= score_a m /\ 0 <= score_b m) ms ->
  0 <= PF (total k ms) /\ 0 <= PA (total k ms).
Proof.
  induction 1 as [| m ms [Ha Hb] _ IH]; simpl.
  - lia.
  - unfold ind.
    destruct (String.eqb k (team_a m)), (String.eqb k (team_b m)); lia.
Qed.

(** Every row of a returned table is the [standing] of a listed team. *)
Lemma table_rows (ms : list Match) (teams : list string) (df : list Row) :
  compute_standings ms teams = Ok df ->
  forall r, In r df -> In (team r) teams /\ r = standing ms teams (team r).
Proof.
  intros H r Hr. apply compute_standings_inv in H. destruct H as (_ & _ & ->).
  destruct (init_data_spec teams) as (_ & Hin & _).
  apply (Permutation_in _ (sort_values_perm _)) in Hr.
  apply in_map_iff in Hr. destruct Hr as (k & <- & Hk).
  split; [ now apply Hin | reflexivity ].
Qed.

(** The row of a listed team in a returned table. *)
Lemma table_loc (ms : list Match) (teams : list string) (df : list Row)
  (k : string) :
  compute_standings ms teams = Ok df -> In k teams ->
  loc_team df k = Some (standing ms teams k).
Proof.
  intros H Hk. apply compute_standings_inv in H. destruct H as (_ & _ & ->).
  now apply loc_team_standing.
Qed.

(** ** compute_standings: when it returns and what it raises *)

(** X1.  [compute_standings] returns a table exactly when the team list
    is not empty and every match names two teams of the list. *)
Theorem returns_table_iff (ms : list Match) (teams : list string) :
  (exists df, compute_standings ms teams = Ok df) <->
  teams <> [] /\ Forall (known teams) ms.
Proof.
  split.
  - intros [df H]. apply compute_standings_inv in H. tauto.
  - intros [Hne Hk]. now apply compute_standings_returns.
Qed.

(** X2.  With an empty team list every call raises KeyError: on the
    column ['PF'] when there is no match, else on the team_a of the first
    match. *)
Theorem empty_team_list_always_raises (ms : list Match) :
  compute_standings ms [] =
  Raise (KeyError (match ms with [] => "PF" | m :: _ => team_a m end)).
Proof.
  destruct ms as [| m ms].
  - reflexivity.
  - apply compute_standings_raise.
    change (tally (init_data []) (m :: ms))
      with (d' <- tally_match [] m ;; tally d' ms).
    rewrite tally_match_raise_a by (simpl; tauto). reflexivity.
Qed.

(** X3.  The exception of an unknown team: when the matches before [m]
    all name listed teams and [m] does not, the call raises the KeyError
    of the team of [m] looked up first and missing, team_a before team_b,
    whatever comes after [m]. *)
Theorem first_unknown_team_raised (good rest : list Match) (m : Match)
  (teams : list string) :
  Forall (known teams) good -> ~ known teams m ->
  compute_standings (good ++ m :: rest) teams =
  Raise (KeyError (first_missing teams m)).
Proof.
  intros Hg Hm. apply compute_standings_raise.
  destruct (init_data_spec teams) as (_ & Hin & _).
  rewrite tally_app, tally_ok by now apply known_keys.
  cbn [bind tally]. unfold first_missing.
  destruct (in_dec string_dec (team_a m) teams) as [Ha | Ha].
  - rewrite tally_match_raise_b; [ reflexivity | |].
    + rewrite keys_map_entries. now apply Hin.
    + rewrite keys_map_entries. intros Hb. apply Hm.
      split; [ exact Ha | now apply Hin ].
  - rewrite tally_match_raise_a; [ reflexivity |].
    rewrite keys_map_entries. intros H. apply Ha. now apply Hin.
Qed.

Lemma first_unknown_team_raised_witness :
  let good := [ mkMatch "X" "Y" 11 5 ] in
  let m := mkMatch "X" "Q" 11 5 in
  let rest := [ mkMatch "R" "Y" 1 2 ] in
  let teams := ["X"; "Y"] in
  (Forall (known teams) good /\ ~ known teams m) /\
  compute_standings (good ++ m :: rest) teams = Raise (KeyError "Q").
Proof.
  intros good m rest teams.
  assert (Hg : Forall (known teams) good) by solve_known.
  assert (Hm : ~ known teams m).
  { intros [_ [H | [H | []]]]; discriminate H. }
  split; [ split; assumption |].
  exact (first_unknown_team_raised good rest m teams Hg Hm).
Defined.

(** X4.  The only exception [compute_standings] raises is KeyError: it
    never raises ValidationError or ReferenceError, whatever the scores
    and the teams of the matches. *)
Theorem raises_only_KeyError (ms : list Match) (teams : list string)
  (e : exn) :
  compute_standings ms teams = Raise e -> exists k, e = KeyError k.
Proof.
  intros H.
  destruct (Forall_Exists_dec (known teams)) with (l := ms) as [Hk | Hx].
  - intros m. unfold known.
    destruct (in_dec string_dec (team_a m) teams),
             (in_dec string_dec (team_b m) teams); tauto.
  - destruct teams as [| t teams].
    + destruct ms as [| m ms].
      * cbv in H. injection H as <-. eauto.
      * inversion Hk as [| ? ? [[] _] _].
    + rewrite compute_standings_ok in H by (assumption || discriminate).
      discriminate.
  - destruct (init_data_spec teams) as (_ & Hin & _).
    destruct (tally_unknown teams ms (init_data teams) Hin Hx)
      as (k & E & _).
    apply compute_standings_raise in E. rewrite E in H.
    injection H as <-. eauto.
Qed.

Lemma raises_only_KeyError_witness :
  compute_standings [ mkMatch "X" "X" (-1) (-1) ] ["Y"]
    = Raise (KeyError "X") /\
  exists k, KeyError "X" = KeyError k.
Proof.
  split.
  - reflexivity.
  - apply (raises_only_KeyError [ mkMatch "X" "X" (-1) (-1) ] ["Y"]).
    reflexivity.
Defined.

(** ** compute_standings: what the rows hold *)

Ltac total_by_cases k m :=
  cbn [total];
  unfold tadd, delta, ind, count_if, is_a, is_b, a_wins, sumZ in *;
  cbn [filter Pld W L PF PA Pts];
  destruct (String.eqb k (team_a m)), (String.eqb k (team_b m)),
           (score_a m >? score_b m);
  cbn [andb negb filter List.length fold_right] in *; lia.

Lemma total_Pld (k : string) (ms : list Match) :
  Pld (total k ms) = count_if (is_a k) ms + count_if (is_b k) ms.
Proof.
  induction ms as [| m ms IH]; [ reflexivity | total_by_cases k m ].
Qed.

Lemma total_W (k : string) (ms : list Match) :
  W (total k ms) =
  count_if (fun m => is_a k m && a_wins m) ms +
  count_if (fun m => is_b k m && negb (a_wins m)) ms.
Proof.
  induction ms as [| m ms IH]; [ reflexivity | total_by_cases k m ].
Qed.

Lemma total_L (k : string) (ms : list Match) :
  L (total k ms) =
  count_if (fun m => is_a k m && negb (a_wins m)) ms +
  count_if (fun m => is_b k m && a_wins m) ms.
Proof.
  induction ms as [| m ms IH]; [ reflexivity | total_by_cases k m ].
Qed.

Lemma total_PF (k : string) (ms : list Match) :
  PF (total k ms) =
  sumZ score_a (filter (is_a k) ms) + sumZ score_b (filter (is_b k) ms).
Proof.
  induction ms as [| m ms IH]; [ reflexivity | total_by_cases k m ].
Qed.

Lemma total_PA (k : string) (ms : list Match) :
  PA (total k ms) =
  sumZ score_b (filter (is_a k) ms) + sumZ score_a (filter (is_b k) ms).
Proof.
  induction ms as [| m ms IH]; [ reflexivity | total_by_cases k m ].
Qed.

(** X5.  What a row holds.  In a returned table the row of a listed team
    [k] has: Pld, the number of matches with [k] as team_a plus the number
    with [k] as team_b; W, the matches as team_a with score_a > score_b
    plus the matches as team_b without it; L, the other way round; PF, the
    score_a of its matches as team_a plus the score_b of its matches as
    team_b; PA, the opposing scores. *)
Theorem row_tallies (ms : list Match) (teams : list string) (df : list Row)
  (k : string) :
  compute_standings ms teams = Ok df -> In k teams ->
  exists r : Row,
    loc_team df k = Some r /\ team r = k /\
    Pld r = count_if (is_a k) ms + count_if (is_b k) ms /\
    W r = count_if (fun m => is_a k m && a_wins m) ms +
          count_if (fun m => is_b k m && negb (a_wins m)) ms /\
    L r = count_if (fun m => is_a k m && negb (a_wins m)) ms +
          count_if (fun m => is_b k m && a_wins m) ms /\
    PF r = sumZ score_a (filter (is_a k) ms) +
           sumZ score_b (filter (is_b k) ms) /\
    PA r = sumZ score_b (filter (is_a k) ms) +
           sumZ score_a (filter (is_b k) ms).
Proof.
  intros H Hk. exists (standing ms teams k).
  split; [ now apply (table_loc ms teams) |].
  split; [ reflexivity |].
  unfold standing, standing_at. cbn [row_of stats fst snd].
  repeat split.
  - apply total_Pld.
  - apply total_W.
  - apply total_L.
  - apply total_PF.
  - apply total_PA.
Qed.

Lemma row_tallies_witness :
  let ms := test_basic in
  let teams := ["X"; "Y"; "Z"] in
  let df := [ mkRow "X" (mkTally 2 2 0 22 8 4) 14;
              mkRow "Z" (mkTally 2 1 1 14 18 2) (-4);
              mkRow "Y" (mkTally 2 0 2 12 22 0) (-10) ] in
  let k := "Z" in
  (compute_standings ms teams = Ok df /\ In k teams) /\
  exists r : Row,
    loc_team df k = Some r /\ team r = k /\
    Pld r = count_if (is_a k) ms + count_if (is_b k) ms /\
    W r = count_if (fun m => is_a k m && a_wins m) ms +
          count_if (fun m => is_b k m && negb (a_wins m)) ms /\
    L r = count_if (fun m => is_a k m && negb (a_wins m)) ms +
          count_if (fun m => is_b k m && a_wins m) ms /\
    PF r = sumZ score_a (filter (is_a k) ms) +
           sumZ score_b (filter (is_b k) ms) /\
    PA r = sumZ score_b (filter (is_a k) ms) +
           sumZ score_a (filter (is_b k) ms).
Proof.
  intros ms teams df k.
  assert (H : compute_standings ms teams = Ok df) by reflexivity.
  assert (Hk : In k teams) by (simpl; tauto).
  split; [ split; assumption | exact (row_tallies ms teams df k H Hk) ].
Defined.

(** X6.  The derived columns: in every row of a returned table the
    points are twice the wins; and when the PF and the PA of every row
    fit a signed 64-bit integer, PD is PF minus PA wrapped to 64 bits,
    which is PF minus PA itself where that difference fits. *)
Theorem row_derived_columns (ms : list Match) (teams : list string)
  (df : list Row) :
  compute_standings ms teams = Ok df ->
  Forall (fun r : Row => Pts r = 2 * W r) df /\
  (Forall (fun r : Row => fits_int64 (PF r) /\ fits_int64 (PA r)) df ->
   Forall (fun r : Row =>
             PD r = wrap_int64 (PF r - PA r) /\
             (fits_int64 (PF r - PA r) -> PD r = PF r - PA r)) df).
Proof.
  intros H. split.
  - apply Forall_forall. intros r Hr.
    destruct (table_rows ms teams df H r Hr) as [_ ->].
    unfold standing, standing_at. cbn [row_of stats fst snd].
    apply total_points.
  - intros Hfit. pose proof (table_PD_int64 ms teams df H Hfit) as Hpd.
    eapply Forall_impl; [| exact Hpd ]. intros r Hr.
    split; [ exact Hr |]. intros Hd. rewrite Hr. now apply wrap_int64_fits.
Qed.

Lemma row_derived_columns_witness :
  let df := [ mkRow "A" (mkTally 2 1 1 20 16 2) 4;
              mkRow "B" (mkTally 2 1 1 16 14 2) 2;
              mkRow "C" (mkTally 2 1 1 14 20 2) (-6) ] in
  compute_standings test_tiebreak ["A"; "B"; "C"] = Ok df /\
  Forall (fun r : Row => Pts r = 2 * W r) df /\
  (Forall (fun r : Row => fits_int64 (PF r) /\ fits_int64 (PA r)) df ->
   Forall (fun r : Row =>
             PD r = wrap_int64 (PF r - PA r) /\
             (fits_int64 (PF r - PA r) -> PD r = PF r - PA r)) df).
Proof.
  intros df. split.
  - reflexivity.
  - apply (row_derived_columns test_tiebreak ["A"; "B"; "C"] df). reflexivity.
Defined.

(** X7.  A listed team that no match names has, in a returned table, the
    row of zeros. *)
Theorem unplayed_team_row (ms : list Match) (teams : list string)
  (df : list Row) (k : string) :
  compute_standings ms teams = Ok df -> In k teams ->
  Forall (fun m => k <> team_a m /\ k <> team_b m) ms ->
  loc_team df k = Some (mkRow k zero 0).
Proof.
  intros H Hk Hun. rewrite (table_loc ms teams df k H Hk).
  unfold standing, standing_at, row_of. cbn [fst snd].
  rewrite total_unnamed by assumption.
  cbn [PF PA zero]. now rewrite sub_cell_zero.
Qed.

Lemma unplayed_team_row_witness :
  let ms := [ mkMatch "A" "B" 11 5 ] in
  let teams := ["A"; "B"; "C"] in
  let df := [ mkRow "A" (mkTally 1 1 0 11 5 2) 6;
              mkRow "C" (mkTally 0 0 0 0 0 0) 0;
              mkRow "B" (mkTally 1 0 1 5 11 0) (-6) ] in
  (compute_standings ms teams = Ok df /\ In "C" teams /\
   Forall (fun m => "C" <> team_a m /\ "C" <> team_b m) ms) /\
  loc_team df "C" = Some (mkRow "C" zero 0).
Proof.
  intros ms teams df.
  assert (H : compute_standings ms teams = Ok df) by reflexivity.
  assert (Hk : In "C" teams) by (simpl; tauto).
  assert (Hun : Forall (fun m => "C" <> team_a m /\ "C" <> team_b m) ms).
  { repeat constructor; discriminate. }
  split; [ repeat split; assumption |].
  exact (unplayed_team_row ms teams df "C" H Hk Hun).
Defined.

Lemma total_played_sum (ks : list string) (ms : list Match) :
  NoDup ks -> Forall (known ks) ms ->
  sumZ (fun k => Pld (total k ms)) ks = 2 * Z.of_nat (List.length ms).
Proof.
  intros Hn. induction 1 as [| m ms [Ha Hb] _ IH].
  - now apply sumZ_zero.
  - cbn [total tadd Pld List.length]. rewrite sumZ_add, IH.
    unfold delta. cbn [Pld].
    rewrite sumZ_add, !sumZ_ind_in by assumption. lia.
Qed.

(** X8.  Column totals: in a returned table the Pld column sums to twice
    the number of matches, the L column to the number of matches and the
    Pts column to twice the number of matches. *)
Theorem column_totals (ms : list Match) (teams : list string)
  (df : list Row) :
  compute_standings ms teams = Ok df ->
  col_sum (fun r => Pld r) df = 2 * Z.of_nat (List.length ms) /\
  col_sum (fun r => L r) df = Z.of_nat (List.length ms) /\
  col_sum (fun r => Pts r) df = 2 * Z.of_nat (List.length ms).
Proof.
  intros H. apply compute_standings_inv in H.
  destruct H as (_ & Hk & ->).
  destruct (init_data_spec teams) as (Hnd & _ & _).
  apply known_keys in Hk.
  unfold col_sum. rewrite !(sumZ_perm _ _ _ (sort_values_perm _)).
  rewrite !sumZ_map. unfold standing, standing_at; cbn [row_of stats fst snd].
  pose proof (total_played_sum _ ms Hnd Hk) as HP.
  pose proof (total_wins _ Hnd ms Hk) as HW.
  repeat split.
  - exact HP.
  - rewrite (sumZ_pointwise _
      (fun k => Pld (total k ms) - W (total k ms))).
    + rewrite sumZ_sub. lia.
    + intros k _. pose proof (total_played k ms). lia.
  - rewrite (sumZ_pointwise _ (fun k => W (total k ms) * 2)).
    + rewrite sumZ_scale. lia.
    + intros k _. rewrite total_points. lia.
Qed.

Lemma column_totals_witness :
  let df := [ mkRow "X" (mkTally 2 2 0 22 8 4) 14;
              mkRow "Z" (mkTally 2 1 1 14 18 2) (-4);
              mkRow "Y" (mkTally 2 0 2 12 22 0) (-10) ] in
  compute_standings test_basic ["X"; "Y"; "Z"] = Ok df /\
  col_sum (fun r => Pld r) df = 2 * Z.of_nat (List.length test_basic) /\
  col_sum (fun r => L r) df = Z.of_nat (List.length test_basic) /\
  col_sum (fun r => Pts r) df = 2 * Z.of_nat (List.length test_basic).
Proof.
  intros df. split.
  - reflexivity.
  - apply (column_totals test_basic ["X"; "Y"; "Z"] df). reflexivity.
Defined.

(** X9.  Bounds: in every row of a returned table wins, losses and
    points are not negative and the wins do not exceed the matches
    played, whatever the scores; when no score is negative, PF and PA are
    not negative either. *)
Theorem row_bounds (ms : list Match) (teams : list string) (df : list Row) :
  compute_standings ms teams = Ok df ->
  Forall (fun r : Row => 0 <= W r <= Pld r /\ 0 <= L r <= Pld r /\
                         0 <= Pts r) df /\
  (Forall (fun m => 0 <= score_a m /\ 0 <= score_b m) ms ->
   Forall (fun r : Row => 0 <= PF r /\ 0 <= PA r) df).
Proof.
  intros H. split; [| intros Hs ]; apply Forall_forall; intros r Hr;
    destruct (table_rows ms teams df H r Hr) as [_ ->];
    unfold standing, standing_at; cbn [row_of stats fst snd].
  - pose proof (total_counts_nonneg (team r) ms).
    pose proof (total_played (team r) ms).
    pose proof (total_points (team r) ms). lia.
  - now apply total_scores_nonneg.
Qed.

Lemma row_bounds_witness :
  let ms := [ mkMatch "X" "Y" (-1) 11 ] in
  let df := [ mkRow "Y" (mkTally 1 1 0 11 (-1) 2) 12;
              mkRow "X" (mkTally 1 0 1 (-1) 11 0) (-12) ] in
  compute_standings ms ["X"; "Y"] = Ok df /\
  Forall (fun r : Row => 0 <= W r <= Pld r /\ 0 <= L r <= Pld r /\
                         0 <= Pts r) df /\
  (Forall (fun m => 0 <= score_a m /\ 0 <= score_b m) ms ->
   Forall (fun r : Row => 0 <= PF r /\ 0 <= PA r) df).
Proof.
  intros ms df. split.
  - reflexivity.
  - apply (row_bounds ms ["X"; "Y"] df). reflexivity.
Defined.

(** X10.  Rank follows the key: in a returned table a row with more
    points than another, or with as many points and a larger PD, stands
    strictly before it.  So a team without a win stands after every team
    with one. *)
Theorem better_key_earlier (ms : list Match) (teams : list string)
  (df : list Row) (i j : nat) (r1 r2 : Row) :
  compute_standings ms teams = Ok df ->
  nth_error df i = Some r1 -> nth_error df j = Some r2 ->
  Pts r1 > Pts r2 \/ (Pts r1 = Pts r2 /\ PD r1 > PD r2) ->
  (i < j)%nat.
Proof.
  intros H H1 H2 Hkey.
  apply compute_standings_inv in H. destruct H as (_ & _ & ->).
  pose proof (sort_values_strongly_sorted
                (map (standing ms teams) (keys (init_data teams)))) as Hs.
  destruct (Nat.lt_trichotomy i j) as [Hlt | [-> | Hgt]].
  - exact Hlt.
  - rewrite H1 in H2. injection H2 as ->. lia.
  - pose proof (strongly_sorted_nth _ _ Hs j i r2 r1 Hgt H2 H1) as R.
    unfold ranks_before in R. lia.
Qed.

Lemma better_key_earlier_witness :
  let ms := [ mkMatch "A" "B" 11 5 ] in
  let teams := ["C"; "B"; "A"] in
  let df := [ mkRow "A" (mkTally 1 1 0 11 5 2) 6;
              mkRow "C" (mkTally 0 0 0 0 0 0) 0;
              mkRow "B" (mkTally 1 0 1 5 11 0) (-6) ] in
  let r1 := mkRow "A" (mkTally 1 1 0 11 5 2) 6 in
  let r2 := mkRow "C" (mkTally 0 0 0 0 0 0) 0 in
  (compute_standings ms teams = Ok df /\
   nth_error df 0 = Some r1 /\ nth_error df 1 = Some r2 /\
   (Pts r1 > Pts r2 \/ (Pts r1 = Pts r2 /\ PD r1 > PD r2))) /\
  (0 < 1)%nat.
Proof.
  intros ms teams df r1 r2.
  assert (H : compute_standings ms teams = Ok df) by reflexivity.
  assert (H1 : nth_error df 0 = Some r1) by reflexivity.
  assert (H2 : nth_error df 1 = Some r2) by reflexivity.
  assert (Hk : Pts r1 > Pts r2 \/ (Pts r1 = Pts r2 /\ PD r1 > PD r2)).
  { left. reflexivity. }
  split; [ repeat split; assumption |].
  exact (better_key_earlier ms teams df 0 1 r1 r2 H H1 H2 Hk).
Defined.

Lemma loc_team_some (df : list Row) (k : string) (r : Row) :
  loc_team df k = Some r -> In r df /\ team r = k.
Proof.
  unfold loc_team. intros H. apply find_some in H. destruct H as [Hi He].
  split; [ exact Hi | now apply String.eqb_eq ].
Qed.

(** X11.  A match touches two rows only: with every match naming listed
    teams, the row of a listed team that is neither team of a match has
    the same Pld, W, L, PF, PA and Pts in the table with that match and
    in the table without it; and the same PD as well when the PF and PA
    of every row of both tables fit a signed 64-bit integer. *)
Theorem other_rows_untouched (ms1 ms2 : list Match) (m : Match)
  (teams : list string) (k : string) :
  Forall (known teams) (ms1 ++ m :: ms2) -> In k teams ->
  k <> team_a m -> k <> team_b m ->
  exists (df df0 : list Row) (r r0 : Row),
    compute_standings (ms1 ++ m :: ms2) teams = Ok df /\
    compute_standings (ms1 ++ ms2) teams = Ok df0 /\
    loc_team df k = Some r /\ loc_team df0 k = Some r0 /\
    team r = team r0 /\ stats r = stats r0 /\
    (Forall (fun x : Row => fits_int64 (PF x) /\ fits_int64 (PA x))
            (df ++ df0) -> r = r0).
Proof.
  intros Hk Hin Ha Hb.
  assert (Hne : teams <> []) by (eapply known_nonempty; eauto).
  destruct (match_effect ms1 ms2 m teams Hne Hk) as (df & df0 & E & E0 & H).
  destruct (H k Hin) as (r & r0 & Hr & Hr0 & Hs).
  rewrite delta_other, tadd_zero_l in Hs by assumption.
  destruct (loc_team_some _ _ _ Hr) as [Ir Tr].
  destruct (loc_team_some _ _ _ Hr0) as [Ir0 Tr0].
  exists df, df0, r, r0. repeat (split; [ assumption |]).
  split; [ congruence |]. split; [ exact Hs |].
  intros Hfit. apply Forall_app in Hfit. destruct Hfit as [F F0].
  pose proof (table_PD_int64 _ _ _ E F) as P.
  pose proof (table_PD_int64 _ _ _ E0 F0) as P0.
  rewrite Forall_forall in P, P0.
  specialize (P r Ir). specialize (P0 r0 Ir0).
  destruct r as [t st pd], r0 as [t0 st0 pd0]. simpl in *.
  subst. reflexivity.
Qed.

Lemma other_rows_untouched_witness :
  let ms1 := [ mkMatch "A" "C" 11 5 ] in
  let m := mkMatch "A" "B" 11 7 in
  let ms2 := [ mkMatch "C" "B" 3 11 ] in
  let teams := ["A"; "B"; "C"] in
  (Forall (known teams) (ms1 ++ m :: ms2) /\ In "C" teams /\
   "C" <> team_a m /\ "C" <> team_b m) /\
  exists (df df0 : list Row) (r r0 : Row),
    compute_standings (ms1 ++ m :: ms2) teams = Ok df /\
    compute_standings (ms1 ++ ms2) teams = Ok df0 /\
    loc_team df "C" = Some r /\ loc_team df0 "C" = Some r0 /\
    team r = team r0 /\ stats r = stats r0 /\
    (Forall (fun x : Row => fits_int64 (PF x) /\ fits_int64 (PA x))
            (df ++ df0) -> r = r0).
Proof.
  intros ms1 m ms2 teams.
  assert (Hk : Forall (known teams) (ms1 ++ m :: ms2)) by solve_known.
  assert (Hin : In "C" teams) by (simpl; tauto).
  assert (Ha : "C" <> team_a m) by discriminate.
  assert (Hb : "C" <> team_b m) by discriminate.
  split; [ repeat split; assumption |].
  exact (other_rows_untouched ms1 ms2 m teams "C" Hk Hin Ha Hb).
Defined.

(** ** compute_standings: the team list and the sides of a match *)

Lemma tally_raise_same (ms : list Match) : forall (d d' : dict) (e : exn),
  (forall k, In k (keys d) <-> In k (keys d')) ->
  tally d ms = Raise e -> tally d' ms = Raise e.
Proof.
  induction ms as [| m ms IH]; intros d d' e Hd H; simpl in *.
  - discriminate.
  - destruct (in_dec string_dec (team_a m) (keys d)) as [Ha | Ha].
    + destruct (in_dec string_dec (team_b m) (keys d)) as [Hb | Hb].
      * rewrite tally_match_ok in H by assumption.
        rewrite tally_match_ok by now apply Hd.
        simpl in *. revert H. apply IH.
        intros k. rewrite !keys_entry_step. apply Hd.
      * rewrite tally_match_raise_b in H by assumption.
        rewrite tally_match_raise_b; [ exact H | now apply Hd |].
        intros F. apply Hb. now apply Hd.
    + rewrite tally_match_raise_a in H by assumption.
      rewrite tally_match_raise_a; [ exact H |].
      intros F. apply Ha. now apply Hd.
Qed.

(** X12.  The team list counts as a set: two lists with the same teams,
    in any order and with any repetitions, give the same exception or
    tables with the same rows (their order can differ between rows equal
    on both sort keys). *)
Theorem team_list_as_set (ms : list Match) (teams teams' : list string) :
  (forall k, In k teams <-> In k teams') ->
  (forall e, compute_standings ms teams = Raise e ->
             compute_standings ms teams' = Raise e) /\
  (forall df, compute_standings ms teams = Ok df ->
     exists df', compute_standings ms teams' = Ok df' /\ Permutation df df').
Proof.
  intros Hset.
  destruct (init_data_spec teams) as (Hnd & Hin & _).
  destruct (init_data_spec teams') as (Hnd' & Hin' & _).
  split.
  - intros e H. unfold compute_standings in H.
    destruct (tally (init_data teams) ms) as [d |] eqn:E.
    + pose proof (tally_inv _ _ _ E) as Hk.
      destruct teams as [| t teams].
      * destruct teams' as [| t' teams'].
        { unfold compute_standings. rewrite E. exact H. }
        { exfalso. apply (Hset t'). now left. }
      * exfalso.
        assert (Hk' : Forall (known (t :: teams)) ms).
        { eapply Forall_impl; [| exact Hk ].
          intros m [Ha Hb]. split; now apply Hin. }
        pose proof (compute_standings_ok ms (t :: teams)) as C.
        unfold compute_standings in C. rewrite E in C.
        rewrite C in H by (assumption || discriminate). discriminate.
    + simpl in H. injection H as <-. apply compute_standings_raise.
      apply (tally_raise_same ms (init_data teams)); [| exact E ].
      intros k. rewrite Hin, Hin'. apply Hset.
  - intros df H. apply compute_standings_inv in H.
    destruct H as (Hne & Hk & ->).
    assert (Hne' : teams' <> []).
    { intros ->. destruct teams as [| t teams]; [ congruence |].
      apply (Hset t). now left. }
    assert (Hk' : Forall (known teams') ms).
    { eapply Forall_impl; [| exact Hk ].
      intros m [Ha Hb]. split; now apply Hset. }
    rewrite compute_standings_ok by assumption.
    eexists. split; [ reflexivity |].
    assert (P : Permutation (keys (init_data teams))
                            (keys (init_data teams'))).
    { apply NoDup_Permutation; try assumption.
      intros k. rewrite Hin, Hin'. apply Hset. }
    eapply perm_trans; [ apply sort_values_perm |].
    eapply perm_trans; [| apply Permutation_sym, sort_values_perm ].
    rewrite (map_ext (standing ms teams) (standing ms teams'))
      by (intros k; now apply standing_same_keys).
    now apply Permutation_map.
Qed.

Lemma team_list_as_set_witness :
  let ms := [ mkMatch "A" "B" 11 5 ] in
  let teams := ["A"; "B"; "C"] in
  let teams' := ["C"; "B"; "A"; "C"] in
  (forall k, In k teams <-> In k teams') /\
  (forall e, compute_standings ms teams = Raise e ->
             compute_standings ms teams' = Raise e) /\
  (forall df, compute_standings ms teams = Ok df ->
     exists df', compute_standings ms teams' = Ok df' /\ Permutation df df').
Proof.
  intros ms teams teams'.
  assert (H : forall k, In k teams <-> In k teams').
  { intros k. unfold teams, teams'. simpl. tauto. }
  split; [ exact H | exact (team_list_as_set ms teams teams' H) ].
Defined.

Lemma known_swap_sides (teams : list string) (ms1 ms2 : list Match)
  (m : Match) :
  Forall (known teams) (ms1 ++ m :: ms2) ->
  Forall (known teams) (ms1 ++ swap_sides m :: ms2).
Proof.
  intros H. apply Forall_app in H. destruct H as [H1 H2].
  inversion H2 as [| ? ? [Ha Hb] H3]; subst.
  apply Forall_app. split; [ exact H1 |].
  constructor; [ split; assumption | exact H3 ].
Qed.

Lemma delta_swap_sides (k : string) (m : Match) :
  score_a m <> score_b m -> delta k (swap_sides m) = delta k m.
Proof.
  intros Hne. unfold delta, swap_sides. cbn [team_a team_b score_a score_b].
  destruct (Z.gtb_spec (score_a m) (score_b m)),
           (Z.gtb_spec (score_b m) (score_a m)); try lia; f_equal; lia.
Qed.

(** X13.  A decided match can be written from either side: with every
    match naming listed teams and the two scores of [m] different,
    exchanging team_a with team_b and score_a with score_b in [m] gives
    the same table. *)
Theorem swap_sides_decided (ms1 ms2 : list Match) (m : Match)
  (teams : list string) :
  Forall (known teams) (ms1 ++ m :: ms2) -> score_a m <> score_b m ->
  compute_standings (ms1 ++ swap_sides m :: ms2) teams =
  compute_standings (ms1 ++ m :: ms2) teams /\
  exists df, compute_standings (ms1 ++ m :: ms2) teams = Ok df.
Proof.
  intros Hk Hs.
  assert (Hne : teams <> []) by (eapply known_nonempty; eauto).
  rewrite !compute_standings_ok by eauto using known_swap_sides.
  split; [| eauto ].
  do 2 f_equal. apply map_ext. intros k. apply standing_ext.
  intros x. now rewrite !total_middle, delta_swap_sides.
Qed.

Lemma swap_sides_decided_witness :
  let ms1 := [ mkMatch "A" "C" 11 5 ] in
  let m := mkMatch "A" "B" 7 11 in
  let ms2 := [ mkMatch "C" "B" 3 11 ] in
  let teams := ["A"; "B"; "C"] in
  (Forall (known teams) (ms1 ++ m :: ms2) /\ score_a m <> score_b m) /\
  compute_standings (ms1 ++ swap_sides m :: ms2) teams =
  compute_standings (ms1 ++ m :: ms2) teams /\
  exists df, compute_standings (ms1 ++ m :: ms2) teams = Ok df.
Proof.
  intros ms1 m ms2 teams.
  assert (Hk : Forall (known teams) (ms1 ++ m :: ms2)) by solve_known.
  assert (Hs : score_a m <> score_b m) by discriminate.
  split; [ split; assumption |].
  exact (swap_sides_decided ms1 ms2 m teams Hk Hs).
Defined.

(** X14.  A drawn match goes to the team written second: with every
    match naming listed teams, equal scores in [m] and two different
    teams, the table with [m] gives the win and its two points to team_b
    of [m], and the table with [m] written from the other side gives them
    to team_a of [m]. *)
Theorem drawn_match_to_second_team (ms1 ms2 : list Match) (m : Match)
  (teams : list string) :
  Forall (known teams) (ms1 ++ m :: ms2) ->
  score_a m = score_b m -> team_a m <> team_b m ->
  exists (df df' : list Row) (ra rb ra' rb' : Row),
    compute_standings (ms1 ++ m :: ms2) teams = Ok df /\
    compute_standings (ms1 ++ swap_sides m :: ms2) teams = Ok df' /\
    loc_team df (team_a m) = Some ra /\ loc_team df (team_b m) = Some rb /\
    loc_team df' (team_a m) = Some ra' /\
    loc_team df' (team_b m) = Some rb' /\
    W rb = W rb' + 1 /\ Pts rb = Pts rb' + 2 /\
    W ra' = W ra + 1 /\ Pts ra' = Pts ra + 2.
Proof.
  intros Hk Hs Hab.
  assert (Hne : teams <> []) by (eapply known_nonempty; eauto).
  assert (Hm : known teams m).
  { apply Forall_app in Hk. destruct Hk as [_ Hk]. now inversion Hk. }
  destruct Hm as [Ha Hb].
  rewrite !compute_standings_ok by eauto using known_swap_sides.
  do 2 eexists.
  exists (standing (ms1 ++ m :: ms2) teams (team_a m)),
         (standing (ms1 ++ m :: ms2) teams (team_b m)),
         (standing (ms1 ++ swap_sides m :: ms2) teams (team_a m)),
         (standing (ms1 ++ swap_sides m :: ms2) teams (team_b m)).
  do 2 (split; [ reflexivity |]).
  rewrite !loc_team_standing by assumption.
  do 4 (split; [ reflexivity |]).
  unfold standing, standing_at, row_of. cbn [stats fst snd].
  rewrite !total_middle.
  unfold delta, swap_sides, ind.
  cbn [team_a team_b score_a score_b tadd W Pts].
  rewrite !String.eqb_refl.
  destruct (String.eqb_spec (team_a m) (team_b m)); [ contradiction |].
  destruct (String.eqb_spec (team_b m) (team_a m)); [ congruence |].
  destruct (Z.gtb_spec (score_a m) (score_b m)),
           (Z.gtb_spec (score_b m) (score_a m)); try lia.
Qed.

Lemma drawn_match_to_second_team_witness :
  let ms1 := [ mkMatch "A" "C" 11 5 ] in
  let m := mkMatch "A" "B" 9 9 in
  let ms2 := [ mkMatch "C" "B" 3 11 ] in
  let teams := ["A"; "B"; "C"] in
  (Forall (known teams) (ms1 ++ m :: ms2) /\
   score_a m = score_b m /\ team_a m <> team_b m) /\
  exists (df df' : list Row) (ra rb ra' rb' : Row),
    compute_standings (ms1 ++ m :: ms2) teams = Ok df /\
    compute_standings (ms1 ++ swap_sides m :: ms2) teams = Ok df' /\
    loc_team df (team_a m) = Some ra /\ loc_team df (team_b m) = Some rb /\
    loc_team df' (team_a m) = Some ra' /\
    loc_team df' (team_b m) = Some rb' /\
    W rb = W rb' + 1 /\ Pts rb = Pts rb' + 2 /\
    W ra' = W ra + 1 /\ Pts ra' = Pts ra + 2.
Proof.
  intros ms1 m ms2 teams.
  assert (Hk : Forall (known teams) (ms1 ++ m :: ms2)) by solve_known.
  assert (Hs : score_a m = score_b m) by reflexivity.
  assert (Hab : team_a m <> team_b m) by discriminate.
  split; [ repeat split; assumption |].
  exact (drawn_match_to_second_team ms1 ms2 m teams Hk Hs Hab).
Defined.

(** ** The organizer's page *)

(** X15.  [init_session_state] leaves both tables in the session, keeps
    a roster and a match log that are already there, and changes nothing
    when run again. *)
Theorem init_session_state_keeps (s : SessionState.t) :
  (exists roster log,
     init_session_state s = SessionState.mk (Some roster) (Some log)) /\
  (forall roster, SessionState.teams s = Some roster ->
     SessionState.teams (init_session_state s) = Some roster) /\
  (forall log, SessionState.matches s = Some log ->
     SessionState.matches (init_session_state s) = Some log) /\
  init_session_state (init_session_state s) = init_session_state s.
Proof.
  destruct s as [[roster |] [log |]]; unfold init_session_state; simpl;
    repeat split; eauto; intros; congruence.
Qed.

Lemma pool_ready_iff (p tag : string) (roster : list Roster.row)
  (log : list Log.row) :
  (exists df, pool_standings p tag roster log = Ok df) <->
  pool_ready p tag roster log.
Proof.
  unfold pool_standings, pool_ready. split.
  - intros [df H]. apply compute_standings_inv in H. tauto.
  - intros [Hne Hk]. now apply compute_standings_returns.
Qed.

(** What a run of the standings part can leave on the page. *)
Lemma show_standings_cases (roster : list Roster.row) (log : list Log.row) :
  (log = [] /\ show_standings roster log = mkPage [] None) \/
  (log <> [] /\ exists e,
     pool_standings "A" "Team A" roster log = Raise e /\
     show_standings roster log = mkPage [] (Some e)) \/
  (log <> [] /\ exists a e,
     pool_standings "A" "Team A" roster log = Ok a /\
     pool_standings "B" "Team B" roster log = Raise e /\
     show_standings roster log = mkPage [a] (Some e)) \/
  (log <> [] /\ exists a b,
     pool_standings "A" "Team A" roster log = Ok a /\
     pool_standings "B" "Team B" roster log = Ok b /\
     show_standings roster log = mkPage [a; b] None).
Proof.
  destruct log as [| r log].
  - left. split; reflexivity.
  - right. unfold show_standings.
    destruct (pool_standings "A" "Team A" roster (r :: log)) as [a | e].
    + right.
      destruct (pool_standings "B" "Team B" roster (r :: log)) as [b | e].
      * right. split; [ discriminate |]. exists a, b. repeat split.
      * left. split; [ discriminate |]. exists a, e. repeat split.
    + left. split; [ discriminate |]. exists e. repeat split.
Qed.

(** X16.  The page shows the two tables exactly when a match is logged
    and, for pool A with the tag 'Team A' and for pool B with the tag
    'Team B', some roster team carries the tag and every logged match of
    the pool is between roster teams carrying it. *)
Theorem standings_shown_iff (roster : list Roster.row) (log : list Log.row) :
  (exists a b, show_standings roster log = mkPage [a; b] None) <->
  log <> [] /\ pool_ready "A" "Team A" roster log /\
  pool_ready "B" "Team B" roster log.
Proof.
  rewrite <- !pool_ready_iff.
  destruct (show_standings_cases roster log)
    as [[Hl E] | [(Hl & e & Ha & E) | [(Hl & a & e & Ha & Hb & E)
                                      | (Hl & a & b & Ha & Hb & E)]]];
    rewrite E.
  - split.
    + intros (a & b & H). discriminate H.
    + intros [H _]. contradiction.
  - split.
    + intros (a & b & H). discriminate H.
    + intros (_ & [a Ha'] & _). congruence.
  - split.
    + intros (a' & b & H). discriminate H.
    + intros (_ & _ & [b Hb']). congruence.
  - split; eauto 6.
Qed.

(** X17.  When matches are logged and no roster team starts with
    'Team A', or none with 'Team B', the standings part of the page ends
    in an exception: before any table is rendered when no team starts
    with 'Team A', and otherwise with at most the table of pool A
    rendered, never both. *)
Theorem standings_need_both_tags (roster : list Roster.row)
  (log : list Log.row) :
  log <> [] ->
  pool_teams "Team A" roster = [] \/ pool_teams "Team B" roster = [] ->
  exists e,
    raised (show_standings roster log) = Some e /\
    (pool_teams "Team A" roster = [] ->
     shown (show_standings roster log) = []) /\
    (List.length (shown (show_standings roster log)) <= 1)%nat.
Proof.
  intros Hlog Hno.
  destruct (show_standings_cases roster log)
    as [[Hl E] | [(Hl & e & Ha & E) | [(Hl & a & e & Ha & Hb & E)
                                      | (Hl & a & b & Ha & Hb & E)]]];
    rewrite E; simpl.
  - contradiction.
  - exists e. repeat split; auto.
  - exists e. repeat split; auto. intros HA. exfalso.
    assert (R : pool_ready "A" "Team A" roster log)
      by (apply pool_ready_iff; eauto).
    destruct R as [R _]. contradiction.
  - exfalso.
    assert (HA : pool_ready "A" "Team A" roster log)
      by (apply pool_ready_iff; eauto).
    assert (HB : pool_ready "B" "Team B" roster log)
      by (apply pool_ready_iff; eauto).
    destruct HA as [HA _], HB as [HB _]. tauto.
Qed.

Lemma standings_need_both_tags_witness :
  let roster := [ Roster.mk "Team A1" "p" "q" "r";
                  Roster.mk "Team A2" "s" "t" "u" ] in
  let log := [ Log.mk 1 "A" "Team A1" "Team A2" "p" "s" 11 4 ] in
  (log <> [] /\
   (pool_teams "Team A" roster = [] \/ pool_teams "Team B" roster = [])) /\
  exists e,
    raised (show_standings roster log) = Some e /\
    (pool_teams "Team A" roster = [] ->
     shown (show_standings roster log) = []) /\
    (List.length (shown (show_standings roster log)) <= 1)%nat.
Proof.
  intros roster log.
  assert (Hl : log <> []) by discriminate.
  assert (Hn : pool_teams "Team A" roster = [] \/
               pool_teams "Team B" roster = []) by (right; reflexivity).
  split; [ split; assumption |].
  exact (standings_need_both_tags roster log Hl Hn).
Defined.

Lemma pool_teams_tagged (tag : string) (roster : list Roster.row)
  (k : string) :
  In k (pool_teams tag roster) -> String.prefix tag k = true.
Proof. unfold pool_teams. intros H. apply filter_In in H. tauto. Qed.

(** X18.  A match logged in pool A with a team whose name does not
    start with 'Team A', or in pool B with a team whose name does not
    start with 'Team B', makes the standings part of the page end in an
    exception: with no table rendered when the match is in pool A, and
    with at most the table of pool A rendered, never that of pool B,
    when it is in pool B. *)
Theorem pool_mismatch_raises (roster : list Roster.row) (log : list Log.row)
  (r : Log.row) (p tag : string) :
  In r log ->
  (p = "A" /\ tag = "Team A") \/ (p = "B" /\ tag = "Team B") ->
  Log.pool r = p ->
  String.prefix tag (Log.team_a r) = false \/
  String.prefix tag (Log.team_b r) = false ->
  exists e,
    raised (show_standings roster log) = Some e /\
    (p = "A" -> shown (show_standings roster log) = []) /\
    (List.length (shown (show_standings roster log)) <= 1)%nat.
Proof.
  intros Hr Hp Hpool Htag.
  assert (Hnot : ~ pool_ready p tag roster log).
  { intros [_ Hk]. rewrite Forall_forall in Hk.
    destruct (Hk (to_match r)) as [Ha Hb].
    - apply in_map. unfold pool_matches. apply filter_In.
      split; [ exact Hr |]. rewrite Hpool. apply String.eqb_refl.
    - apply pool_teams_tagged in Ha. apply pool_teams_tagged in Hb.
      simpl in Ha, Hb. destruct Htag; congruence. }
  destruct (show_standings_cases roster log)
    as [[Hl E] | [(Hl & e & Ha & E) | [(Hl & a & e & Ha & Hb & E)
                                      | (Hl & a & b & Ha & Hb & E)]]];
    rewrite E; simpl.
  - subst log. contradiction.
  - exists e. repeat split; auto.
  - exists e. repeat split; auto. intros ->. exfalso. apply Hnot.
    destruct Hp as [[_ ->] | [F _]]; [| discriminate F ].
    apply pool_ready_iff. eauto.
  - exfalso. apply Hnot. apply pool_ready_iff.
    destruct Hp as [[-> ->] | [-> ->]]; eauto.
Qed.

Lemma pool_mismatch_raises_witness :
  let roster := [ Roster.mk "Team A1" "p" "q" "r";
                  Roster.mk "Team A2" "s" "t" "u";
                  Roster.mk "Team B1" "v" "w" "x";
                  Roster.mk "Team B2" "y" "z" "a" ] in
  let r := Log.mk 2 "B" "Team B1" "Team A2" "v" "s" 11 4 in
  let log := [ Log.mk 1 "A" "Team A1" "Team A2" "p" "s" 11 9; r ] in
  (In r log /\
   ("B" = "A" /\ "Team B" = "Team A" \/ "B" = "B" /\ "Team B" = "Team B") /\
   Log.pool r = "B" /\
   (String.prefix "Team B" (Log.team_a r) = false \/
    String.prefix "Team B" (Log.team_b r) = false)) /\
  exists e,
    raised (show_standings roster log) = Some e /\
    ("B" = "A" -> shown (show_standings roster log) = []) /\
    (List.length (shown (show_standings roster log)) <= 1)%nat.
Proof.
  intros roster r log.
  assert (H1 : In r log) by (right; left; reflexivity).
  assert (H2 : "B" = "A" /\ "Team B" = "Team A" \/
               "B" = "B" /\ "Team B" = "Team B")
    by (right; split; reflexivity).
  assert (H3 : Log.pool r = "B") by reflexivity.
  assert (H4 : String.prefix "Team B" (Log.team_a r) = false \/
               String.prefix "Team B" (Log.team_b r) = false)
    by (right; reflexivity).
  split; [ repeat split; assumption |].
  exact (pool_mismatch_raises roster log r "B" "Team B" H1 H2 H3 H4).
Defined.

Lemma dict_set_present (k : string) (d : dict) :
  In k (keys d) -> Forall (fun e => snd e = zero) d -> dict_set k zero d = d.
Proof.
  induction d as [| [k' t] d IH]; simpl; intros Hin Hz.
  - contradiction.
  - inversion Hz as [| ? ? Ht Hd]; subst. simpl in Ht. subst t.
    destruct (String.eqb_spec k' k) as [E | E].
    + reflexivity.
    + destruct Hin as [Hin | Hin]; [ contradiction |].
      now rewrite IH.
Qed.

Lemma init_data_again (teams : list string) (k : string) :
  In k teams -> init_data (teams ++ [k]) = init_data teams.
Proof.
  intros Hk. destruct (init_data_spec teams) as (_ & Hin & Hz).
  unfold init_data at 1. rewrite fold_left_app. simpl.
  apply dict_set_present; [ now apply Hin | exact Hz ].
Qed.

Lemma compute_standings_again (ms : list Match) (teams : list string)
  (k : string) :
  In k teams ->
  compute_standings ms (teams ++ [k]) = compute_standings ms teams.
Proof.
  intros Hk. unfold compute_standings. now rewrite init_data_again.
Qed.

Lemma pool_teams_add (tag : string) (roster : list Roster.row)
  (t p1 p2 p3 : string) :
  pool_teams tag (add_team roster t p1 p2 p3) =
  pool_teams tag roster ++ (if String.prefix tag t then [t] else []).
Proof.
  unfold pool_teams, add_team. rewrite map_app, filter_app. reflexivity.
Qed.

Lemma pool_standings_add_again (p tag : string) (roster : list Roster.row)
  (log : list Log.row) (t p1 p2 p3 : string) :
  In t (map Roster.team roster) ->
  pool_standings p tag (add_team roster t p1 p2 p3) log =
  pool_standings p tag roster log.
Proof.
  intros Hin. unfold pool_standings. rewrite pool_teams_add.
  destruct (String.prefix tag t) eqn:E.
  - apply compute_standings_again. unfold pool_teams.
    apply filter_In. split; assumption.
  - now rewrite app_nil_r.
Qed.

(** X19.  Adding a team whose name is already on the roster (with
    whatever players) changes nothing in what the page shows: the
    repeated name is one key of the tally. *)
Theorem add_team_again_same_standings (roster : list Roster.row)
  (log : list Log.row) (t p1 p2 p3 : string) :
  In t (map Roster.team roster) ->
  show_standings (add_team roster t p1 p2 p3) log =
  show_standings roster log.
Proof.
  intros Hin. unfold show_standings. destruct log as [| r log].
  - reflexivity.
  - now rewrite !pool_standings_add_again.
Qed.

Lemma add_team_again_same_standings_witness :
  let roster := [ Roster.mk "Team A1" "p" "q" "r";
                  Roster.mk "Team A2" "s" "t" "u";
                  Roster.mk "Team B1" "v" "w" "x" ] in
  let log := [ Log.mk 1 "A" "Team A1" "Team A2" "p" "s" 11 4 ] in
  In "Team A2" (map Roster.team roster) /\
  show_standings (add_team roster "Team A2" "k" "l" "m") log =
  show_standings roster log.
Proof.
  intros roster log.
  assert (H : In "Team A2" (map Roster.team roster)).
  { right. left. reflexivity. }
  split; [ exact H |].
  exact (add_team_again_same_standings roster log "Team A2" "k" "l" "m" H).
Defined.

(** X20.  Adding a new team to a pool: when the table of a pool is
    computed, and a team is added whose name is not on the roster and
    carries the tag of the pool, the table is computed again and holds
    the rows it had and a row of zeros for the new team. *)
Theorem add_team_new_row (p tag : string) (roster : list Roster.row)
  (log : list Log.row) (t p1 p2 p3 : string) (df : list Row) :
  pool_standings p tag roster log = Ok df ->
  ~ In t (map Roster.team roster) -> String.prefix tag t = true ->
  exists df',
    pool_standings p tag (add_team roster t p1 p2 p3) log = Ok df' /\
    Permutation df' (mkRow t zero 0 :: df).
Proof.
  intros H Hnew Htag. unfold pool_standings in *.
  rewrite pool_teams_add, Htag.
  set (ms := map to_match (pool_matches p log)) in *.
  set (teams := pool_teams tag roster) in *.
  apply compute_standings_inv in H. destruct H as (Hne & Hk & ->).
  assert (Hnt : ~ In t teams).
  { intros F. apply Hnew. unfold teams, pool_teams in F.
    apply filter_In in F. tauto. }
  destruct (init_data_spec teams) as (Hnd & Hin & _).
  destruct (init_data_spec (teams ++ [t])) as (Hnd' & Hin' & _).
  assert (Hz : total t ms = zero).
  { apply total_unnamed. eapply Forall_impl; [| exact Hk ].
    intros m [Ha Hb]. split; intros ->; contradiction. }
  assert (P : Permutation (keys (init_data (teams ++ [t])))
                          (t :: keys (init_data teams))).
  { apply NoDup_Permutation.
    - exact Hnd'.
    - constructor; [| exact Hnd ]. intros F. apply Hnt. now apply Hin.
    - intros k. rewrite Hin', in_app_iff. simpl. rewrite Hin. tauto. }
  assert (Hsame : forall k,
            standing ms (teams ++ [t]) k = standing ms teams k).
  { intros k. unfold standing, PF_dtype, PA_dtype.
    rewrite (infer_dtype_perm _ _
               (Permutation_map (fun x => PF (total x ms)) P)).
    rewrite (infer_dtype_perm _ _
               (Permutation_map (fun x => PA (total x ms)) P)).
    cbn [map]. rewrite Hz. cbn [PF PA zero].
    now rewrite !infer_dtype_zero. }
  assert (Ht : standing ms teams t = mkRow t zero 0).
  { unfold standing, standing_at, row_of. cbn [fst snd]. rewrite Hz.
    cbn [PF PA zero]. now rewrite sub_cell_zero. }
  rewrite compute_standings_ok.
  - eexists. split; [ reflexivity |].
    eapply perm_trans; [ apply sort_values_perm |].
    rewrite (map_ext _ _ Hsame).
    eapply perm_trans; [ apply Permutation_map, P |].
    cbn [map]. rewrite Ht. apply perm_skip.
    apply Permutation_sym, sort_values_perm.
  - intros E. apply app_eq_nil in E. destruct E as [_ E]. discriminate.
  - eapply Forall_impl; [| exact Hk ]. intros m [Ha Hb].
    split; apply in_or_app; now left.
Qed.

Lemma add_team_new_row_witness :
  let roster := [ Roster.mk "Team A1" "p" "q" "r";
                  Roster.mk "Team A2" "s" "t" "u" ] in
  let log := [ Log.mk 1 "A" "Team A1" "Team A2" "p" "s" 11 4 ] in
  let df := [ mkRow "Team A1" (mkTally 1 1 0 11 4 2) 7;
              mkRow "Team A2" (mkTally 1 0 1 4 11 0) (-7) ] in
  (pool_standings "A" "Team A" roster log = Ok df /\
   ~ In "Team A3" (map Roster.team roster) /\
   String.prefix "Team A" "Team A3" = true) /\
  exists df',
    pool_standings "A" "Team A" (add_team roster "Team A3" "k" "l" "m") log
      = Ok df' /\
    Permutation df' (mkRow "Team A3" zero 0 :: df).
Proof.
  intros roster log df.
  assert (H : pool_standings "A" "Team A" roster log = Ok df) by reflexivity.
  assert (Hn : ~ In "Team A3" (map Roster.team roster)).
  { intros [F | [F | []]]; discriminate F. }
  assert (Ht : String.prefix "Team A" "Team A3" = true) by reflexivity.
  split; [ repeat split; assumption |].
  exact (add_team_new_row "A" "Team A" roster log "Team A3" "k" "l" "m" df
           H Hn Ht).
Defined.

Lemma pool_matches_submit (p : string) (log : list Log.row) (rnd : Z)
  (q ta tb pa pb : string) (sa sb : Z) :
  map to_match (pool_matches p (submit log rnd q ta tb pa pb sa sb)) =
  map to_match (pool_matches p log) ++
  (if String.eqb q p then [mkMatch ta tb sa sb] else []).
Proof.
  unfold pool_matches, submit. rewrite filter_app, map_app. simpl.
  destruct (String.eqb q p); reflexivity.
Qed.

(** X21.  Submitting a match to a pool whose table is computed: the
    table of that pool is still computed afterwards exactly when both
    teams of the match are roster teams carrying the tag of the pool; the
    table of any other pool is what it was. *)
Theorem submit_keeps_table_iff (p tag : string) (roster : list Roster.row)
  (log : list Log.row) (rnd : Z) (ta tb pa pb : string) (sa sb : Z)
  (df0 : list Row) :
  pool_standings p tag roster log = Ok df0 ->
  ((exists df,
      pool_standings p tag roster (submit log rnd p ta tb pa pb sa sb)
        = Ok df) <->
   In ta (pool_teams tag roster) /\ In tb (pool_teams tag roster)) /\
  (forall q tag', q <> p ->
     pool_standings q tag' roster (submit log rnd p ta tb pa pb sa sb) =
     pool_standings q tag' roster log).
Proof.
  intros H. split.
  - unfold pool_standings in *. rewrite pool_matches_submit, String.eqb_refl.
    apply compute_standings_inv in H. destruct H as (Hne & Hk & _).
    split.
    + intros [df E]. apply compute_standings_inv in E.
      destruct E as (_ & E & _). apply Forall_app in E.
      destruct E as [_ E]. inversion E as [| ? ? Hm _]. exact Hm.
    + intros Hm. apply compute_standings_returns; [ exact Hne |].
      apply Forall_app. split; [ exact Hk |]. constructor; [ exact Hm |].
      constructor.
  - intros q tag' Hq. unfold pool_standings. rewrite pool_matches_submit.
    destruct (String.eqb_spec p q) as [E | E]; [ congruence |].
    now rewrite app_nil_r.
Qed.

Lemma submit_keeps_table_iff_witness :
  let roster := [ Roster.mk "Team A1" "p" "q" "r";
                  Roster.mk "Team A2" "s" "t" "u";
                  Roster.mk "Team B1" "v" "w" "x" ] in
  let log := [ Log.mk 1 "A" "Team A1" "Team A2" "p" "s" 11 4 ] in
  let df0 := [ mkRow "Team A1" (mkTally 1 1 0 11 4 2) 7;
               mkRow "Team A2" (mkTally 1 0 1 4 11 0) (-7) ] in
  pool_standings "A" "Team A" roster log = Ok df0 /\
  ((exists df,
      pool_standings "A" "Team A" roster
        (submit log 2 "A" "Team A2" "Team B1" "s" "v" 11 2) = Ok df) <->
   In "Team A2" (pool_teams "Team A" roster) /\
   In "Team B1" (pool_teams "Team A" roster)) /\
  (forall q tag', q <> "A" ->
     pool_standings q tag' roster
       (submit log 2 "A" "Team A2" "Team B1" "s" "v" 11 2) =
     pool_standings q tag' roster log).
Proof.
  intros roster log df0.
  assert (H : pool_standings "A" "Team A" roster log = Ok df0)
    by reflexivity.
  split; [ exact H |].
  exact (submit_keeps_table_iff "A" "Team A" roster log 2 "Team A2" "Team B1"
           "s" "v" 11 2 df0 H).
Defined.
